(** * DebuggerPausePositions: the debugger's index of pause positions

    A shallow embedding of [JavaScriptCore/debugger/DebuggerParseData.cpp]:
    the sorted vector [m_positions] of pause positions, the binary search
    [firstPositionAfter], the resolution [breakpointLocationForLineColumn],
    the range enumeration [forEachBreakpointLocation] and [sort].

    Conventions.
    - C++ [int] values (lines, columns, offsets, the skip counter) are [Z];
      the code only compares them, and counts scopes with a counter that is
      bounded by the number of records, so no wrap-around is involved.
    - The vector [m_positions] is a [list]; an iterator into it is the range
      it still has in front of it, that is a suffix of the list: [it ==
      m_positions.end()] is the empty suffix, [*it] its head and [++it] its
      tail.  Dereferencing the end iterator is the outcome [OutOfBounds].
    - The visitor of [forEachBreakpointLocation] is observed through the list
      of positions it is called with, in call order. *)

From Stdlib Require Import ZArith List Bool Arith Lia Permutation Sorted.
From Equations Require Import Equations.
Import ListNotations.

Set Implicit Arguments.

(* ===================================================================== *)
(** ** Data model *)
(* ===================================================================== *)

(** Modelled from the spec: the enumeration [DebuggerPausePositionType] is
    declared in DebuggerParseData.h, which is not among the sources.  The
    spec names the three stored kinds [Enter], [Leave] and [Normal], and the
    sentinel [Invalid] that only the search probe carries. *)
Inductive DebuggerPausePositionType : Type :=
| Invalid
| Enter
| Normal
| Leave.

(** Modelled from the spec: [JSTextPosition] is declared in the parser's
    headers, which are not among the sources.  The spec describes a position
    as a line, a column and an offset into the source text; the code reads
    [line] and [offset] as fields and the column through [column()]. *)
Record JSTextPosition : Type := mkJSTextPosition {
  line : Z;
  column : Z;
  offset : Z
}.

Record DebuggerPausePosition : Type := mkDebuggerPausePosition {
  type : DebuggerPausePositionType;
  position : JSTextPosition
}.

(** What a member function leaves behind: a value, or a read through an
    iterator that is not in front of any record. *)
Inductive Outcome (A : Type) : Type :=
| Returned (a : A)
| OutOfBounds.
Arguments OutOfBounds {A}.

Definition isEnter (t : DebuggerPausePositionType) : bool :=
  match t with Enter => true | _ => false end.

Definition isLeave (t : DebuggerPausePositionType) : bool :=
  match t with Leave => true | _ => false end.

(** Modelled from the spec: [operator==] of [JSTextPosition] is declared with
    the type, which is not among the sources.  [appendIfNotContains] uses it
    to suppress exact duplicates: two positions are equal when all their
    members are. *)
Definition JSTextPosition_eqb (a b : JSTextPosition) : bool :=
  ((line a =? line b) && (column a =? column b) && (offset a =? offset b))%Z.

(* ===================================================================== *)
(** ** The standard algorithms the code calls *)
(* ===================================================================== *)

Module Std.

(** A comparator as the standard library requires it: a strict weak
    ordering. *)
Record StrictWeakOrder (A : Type) (comp : A -> A -> bool) : Prop := {
  swo_irrefl : forall a, comp a a = false;
  swo_trans : forall a b c, comp a b = true -> comp b c = true -> comp a c = true;
  swo_negtrans : forall a b c, comp a b = false -> comp b c = false -> comp a c = false
}.

(** [b] does not compare less than [a]: what [std::sort] guarantees of every
    element [b] that stands after an element [a]. *)
Definition notAfter (A : Type) (comp : A -> A -> bool) (a b : A) : Prop :=
  comp b a = false.

(** [std::is_sorted]: no element is followed by one that compares less. *)
Fixpoint is_sorted (A : Type) (comp : A -> A -> bool) (l : list A) : bool :=
  match l with
  | [] => true
  | a :: l' =>
      match l' with
      | [] => true
      | b :: _ => negb (comp b a) && is_sorted comp l'
      end
  end.

(** [std::lower_bound] on the range of [count] elements starting at index
    [first], for the predicate [less := fun x => comp x value]:
<<
    while (count > 0) {
        it = first; step = count / 2; advance(it, step);
        if (comp( *it, value )) { first = ++it; count -= step + 1; }
        else count = step;
    }
    return first;
>>
    The read [*it] is always inside the range (first + step < first + count);
    the [None] branch is there for totality only. *)
Equations? lower_bound_loop (A : Type) (less : A -> bool) (v : list A)
    (first count : nat) : nat by wf count lt :=
  lower_bound_loop less v first 0 := first;
  lower_bound_loop less v first (S n) with nth_error v (first + Nat.div2 (S n)) := {
    | None := first
    | Some x with less x := {
      | true := lower_bound_loop less v (first + Nat.div2 (S n) + 1) (S n - (Nat.div2 (S n) + 1))
      | false := lower_bound_loop less v first (Nat.div2 (S n)) } }.
Proof.
  - change (S n - (Nat.div2 (S n) + 1) < S n).
    generalize (Nat.div2 (S n)). intros. lia.
  - change (Nat.div2 (S n) < S n). apply Nat.lt_div2. lia.
Qed.

Definition lower_bound (A : Type) (comp : A -> A -> bool) (v : list A) (value : A) : nat :=
  lower_bound_loop (fun x => comp x value) v 0 (length v).

(** [std::sort] is specified by its postcondition only, and the order of
    elements that compare equivalent is not fixed: the algorithm is an
    interface, ... *)
Class Sort : Type := {
  std_sort : forall A : Type, (A -> A -> bool) -> list A -> list A
}.

(** ... and its contract is that, for a strict weak ordering, the result is
    a rearrangement of the input in which no element compares less than an
    earlier one.  Every statement about the code that sorts holds for each
    implementation that meets the contract. *)
Class SortContract (S : Sort) : Prop := {
  std_sort_permutation :
    forall (A : Type) (comp : A -> A -> bool) (l : list A),
      StrictWeakOrder comp -> Permutation l (std_sort comp l);
  std_sort_sorted :
    forall (A : Type) (comp : A -> A -> bool) (l : list A),
      StrictWeakOrder comp -> is_sorted comp (std_sort comp l) = true
}.

(** A range is partitioned by [less]: once it fails, it fails from there
    on.  This is what [std::lower_bound] requires of its range. *)
Definition partitioned (A : Type) (less : A -> bool) (v : list A) : Prop :=
  forall i j x y, i <= j -> nth_error v i = Some x -> nth_error v j = Some y ->
                  less y = true -> less x = true.

(** Insertion sort that keeps equivalent elements in their order. *)
Fixpoint insert (A : Type) (comp : A -> A -> bool) (x : A) (l : list A) : list A :=
  match l with
  | [] => [x]
  | y :: l' => if comp y x then y :: insert comp x l' else x :: y :: l'
  end.

Definition insertion_sort (A : Type) (comp : A -> A -> bool) (l : list A) : list A :=
  fold_right (insert comp) [] l.

(** Two implementations of [std::sort]: one keeps the order of equivalent
    elements, the other reverses it. *)
Definition stableSort : Sort := {| std_sort := insertion_sort |}.

Definition reversingSort : Sort :=
  {| std_sort := fun A comp l => insertion_sort comp (rev l) |}.

End Std.

(** The halves [x / 2] of the termination goals, written back as divisions. *)
Ltac fold_half :=
  repeat match goal with
    | |- context [fst (Nat.divmod ?x 1 0 1)] =>
        change (fst (Nat.divmod x 1 0 1)) with (x / 2)
    | H : context [fst (Nat.divmod ?x 1 0 1)] |- _ =>
        change (fst (Nat.divmod x 1 0 1)) with (x / 2) in H
    end.

(** [std::sort] as GNU libstdc++ implements it (GCC 12, bits/stl_algo.h and
    bits/stl_heap.h): introsort, that is quicksort on a median of three down
    to ranges of 16 elements, heapsort when the depth limit is used up, and
    a final insertion sort.  The vector is a list, an iterator is an index
    into it; the functions keep the names of the library, without their
    leading underscores.  A read outside the vector, which the library's
    unguarded loops make only for a comparator that is not a strict weak
    ordering, ends the loop it stands in. *)
Module Libstdcxx.
Section Algorithms.
Variable A : Type.
Variable comp : A -> A -> bool.

(** [enum { _S_threshold = 16 }]. *)
Definition S_threshold : nat := 16.

(** [*(first + i) = x]. *)
Fixpoint assign (v : list A) (i : nat) (x : A) : list A :=
  match v, i with
  | [], _ => []
  | _ :: v', 0 => x :: v'
  | y :: v', S i' => y :: assign v' i' x
  end.

(** [comp(i, j)] on two iterators. *)
Definition compAt (v : list A) (i j : nat) : bool :=
  match nth_error v i, nth_error v j with
  | Some x, Some y => comp x y
  | _, _ => false
  end.

(** [std::iter_swap(i, j)]. *)
Definition iter_swap (v : list A) (i j : nat) : list A :=
  match nth_error v i, nth_error v j with
  | Some x, Some y => assign (assign v i y) j x
  | _, _ => v
  end.

(** [__move_median_to_first(result, a, b, c, comp)]. *)
Definition move_median_to_first (v : list A) (result a b c : nat) : list A :=
  if compAt v a b then
    if compAt v b c then iter_swap v result b
    else if compAt v a c then iter_swap v result c
    else iter_swap v result a
  else if compAt v a c then iter_swap v result a
  else if compAt v b c then iter_swap v result c
  else iter_swap v result b.

(** [while (comp(first, pivot)) ++first;]: how many times [first] is
    advanced; [n] counts the elements from [first] to the end of the vector. *)
Fixpoint steps_up (n : nat) (v : list A) (first pivot : nat) : nat :=
  match n with
  | 0 => 0
  | S n' => if compAt v first pivot then S (steps_up n' v (S first) pivot) else 0
  end.

(** [while (comp(pivot, last)) --last;]: how many times [last] is moved back. *)
Fixpoint steps_down (v : list A) (pivot last : nat) : nat :=
  match last with
  | 0 => 0
  | S last' => if compAt v pivot (S last') then S (steps_down v pivot last') else 0
  end.

(** [__unguarded_partition(first, last, pivot, comp)]: the vector and the
    iterator it returns. *)
Equations? unguarded_partition (v : list A) (first last pivot : nat) : list A * nat
    by wf (last - first) lt :=
  unguarded_partition v first last pivot
    with lt_dec (first + steps_up (length v - first) v first pivot)
                (last - 1 - steps_down v pivot (last - 1)) := {
    | left _ :=
        unguarded_partition
          (iter_swap v (first + steps_up (length v - first) v first pivot)
                       (last - 1 - steps_down v pivot (last - 1)))
          (S (first + steps_up (length v - first) v first pivot))
          (last - 1 - steps_down v pivot (last - 1)) pivot
    | right _ := (v, first + steps_up (length v - first) v first pivot) }.
Proof. lia. Qed.

(** [__unguarded_partition_pivot(first, last, comp)]. *)
Definition unguarded_partition_pivot (v : list A) (first last : nat) : list A * nat :=
  let mid := first + (last - first) / 2 in
  unguarded_partition (move_median_to_first v first (first + 1) mid (last - 1))
    (first + 1) last first.

(** [__unguarded_linear_insert(last, comp)], with [val] moved out of [*last]. *)
Fixpoint unguarded_linear_insert_loop (v : list A) (val : A) (last : nat) : list A :=
  match last with
  | 0 => assign v 0 val
  | S next =>
      match nth_error v next with
      | Some y =>
          if comp val y
          then unguarded_linear_insert_loop (assign v (S next) y) val next
          else assign v (S next) val
      | None => assign v (S next) val
      end
  end.

Definition unguarded_linear_insert (v : list A) (last : nat) : list A :=
  match nth_error v last with
  | Some val => unguarded_linear_insert_loop v val last
  | None => v
  end.

(** [move_backward(first, i, i + 1); *first = val]. *)
Definition move_backward_insert (v : list A) (first i : nat) (val : A) : list A :=
  firstn first v ++ val :: firstn (i - first) (skipn first v) ++ skipn (S i) v.

(** The body of the loop of [__insertion_sort]. *)
Definition insertion_sort_step (v : list A) (first i : nat) : list A :=
  match nth_error v i with
  | Some val =>
      if compAt v i first then move_backward_insert v first i val
      else unguarded_linear_insert v i
  | None => v
  end.

Fixpoint insertion_sort_loop (count : nat) (v : list A) (first i : nat) : list A :=
  match count with
  | 0 => v
  | S count' => insertion_sort_loop count' (insertion_sort_step v first i) first (S i)
  end.

(** [__insertion_sort(first, last, comp)]. *)
Definition insertion_sort (v : list A) (first last : nat) : list A :=
  if first =? last then v
  else insertion_sort_loop (last - (first + 1)) v first (first + 1).

Fixpoint unguarded_insertion_sort_loop (count : nat) (v : list A) (i : nat) : list A :=
  match count with
  | 0 => v
  | S count' => unguarded_insertion_sort_loop count' (unguarded_linear_insert v i) (S i)
  end.

(** [__unguarded_insertion_sort(first, last, comp)]. *)
Definition unguarded_insertion_sort (v : list A) (first last : nat) : list A :=
  unguarded_insertion_sort_loop (last - first) v first.

(** [__final_insertion_sort(first, last, comp)]. *)
Definition final_insertion_sort (v : list A) (first last : nat) : list A :=
  if S_threshold <? last - first
  then unguarded_insertion_sort (insertion_sort v first (first + S_threshold))
         (first + S_threshold) last
  else insertion_sort v first last.

(** [__push_heap(first, holeIndex, topIndex, value, comp)]. *)
Equations? push_heap (v : list A) (first holeIndex topIndex : nat) (value : A) : list A
    by wf holeIndex lt :=
  push_heap v first holeIndex topIndex value with lt_dec topIndex holeIndex := {
    | left _ with nth_error v (first + (holeIndex - 1) / 2) := {
      | Some p with comp p value := {
        | true := push_heap (assign v (first + holeIndex) p) first
                    ((holeIndex - 1) / 2) topIndex value
        | false := assign v (first + holeIndex) value }
      | None := assign v (first + holeIndex) value }
    | right _ := assign v (first + holeIndex) value }.
Proof.
  fold_half.
  assert ((holeIndex - 1) / 2 <= holeIndex - 1) by (apply Nat.Div0.div_le_upper_bound; lia).
  lia.
Qed.

(** The first loop of [__adjust_heap]: the vector and the hole it ends on
    (the hole and [secondChild] are equal each time the loop is tested). *)
Equations? adjust_heap_loop (v : list A) (first len secondChild : nat) : list A * nat
    by wf (len - secondChild) lt :=
  adjust_heap_loop v first len secondChild with lt_dec secondChild ((len - 1) / 2) := {
    | left _ with compAt v (first + 2 * (secondChild + 1)) (first + (2 * (secondChild + 1) - 1)) := {
      | true with nth_error v (first + (2 * (secondChild + 1) - 1)) := {
        | Some x := adjust_heap_loop (assign v (first + secondChild) x) first len
                      (2 * (secondChild + 1) - 1)
        | None := (v, secondChild) }
      | false with nth_error v (first + 2 * (secondChild + 1)) := {
        | Some x := adjust_heap_loop (assign v (first + secondChild) x) first len
                      (2 * (secondChild + 1))
        | None := (v, secondChild) } }
    | right _ := (v, secondChild) }.
Proof.
  all: fold_half;
    assert ((len - 1) / 2 <= len - 1) by (apply Nat.Div0.div_le_upper_bound; lia);
    lia.
Qed.

(** [__adjust_heap(first, holeIndex, len, value, comp)]; [len] is signed in
    the library, so that [(len - 2) / 2] matches no child for [len < 2]. *)
Definition adjust_heap (v : list A) (first holeIndex len : nat) (value : A) : list A :=
  let topIndex := holeIndex in
  let (v1, secondChild) := adjust_heap_loop v first len holeIndex in
  if Nat.even len && (2 <=? len) && (secondChild =? (len - 2) / 2)
  then
    let secondChild' := 2 * (secondChild + 1) in
    match nth_error v1 (first + (secondChild' - 1)) with
    | Some x =>
        push_heap (assign v1 (first + secondChild) x) first (secondChild' - 1) topIndex value
    | None => push_heap v1 first secondChild topIndex value
    end
  else push_heap v1 first secondChild topIndex value.

(** [__pop_heap(first, last, result, comp)]. *)
Definition pop_heap (v : list A) (first last result : nat) : list A :=
  match nth_error v result, nth_error v first with
  | Some value, Some top => adjust_heap (assign v result top) first 0 (last - first) value
  | _, _ => v
  end.

(** [__make_heap(first, last, comp)]. *)
Fixpoint make_heap_loop (v : list A) (first len parent : nat) : list A :=
  match nth_error v (first + parent) with
  | Some value =>
      let v1 := adjust_heap v first parent len value in
      match parent with
      | 0 => v1
      | S parent' => make_heap_loop v1 first len parent'
      end
  | None => v
  end.

Definition make_heap (v : list A) (first last : nat) : list A :=
  if last - first <? 2 then v
  else make_heap_loop v first (last - first) ((last - first - 2) / 2).

(** [__heap_select(first, middle, last, comp)]. *)
Fixpoint heap_select_loop (count : nat) (v : list A) (first middle i : nat) : list A :=
  match count with
  | 0 => v
  | S count' =>
      heap_select_loop count'
        (if compAt v i first then pop_heap v first middle i else v) first middle (S i)
  end.

Definition heap_select (v : list A) (first middle last : nat) : list A :=
  heap_select_loop (last - middle) (make_heap v first middle) first middle middle.

(** [__sort_heap(first, last, comp)]. *)
Fixpoint sort_heap_loop (count : nat) (v : list A) (first last : nat) : list A :=
  match count with
  | 0 => v
  | S count' =>
      if 1 <? last - first
      then sort_heap_loop count' (pop_heap v first (last - 1) (last - 1)) first (last - 1)
      else v
  end.

Definition sort_heap (v : list A) (first last : nat) : list A :=
  sort_heap_loop (last - first) v first last.

(** [__partial_sort(first, middle, last, comp)]. *)
Definition partial_sort (v : list A) (first middle last : nat) : list A :=
  sort_heap (heap_select v first middle last) first middle.

(** [__introsort_loop(first, last, depth_limit, comp)]: every turn of its
    loop uses up one unit of the depth limit. *)
Fixpoint introsort_loop (depth_limit : nat) (v : list A) (first last : nat) : list A :=
  if S_threshold <? last - first then
    match depth_limit with
    | 0 => partial_sort v first last last
    | S depth_limit' =>
        let (v1, cut) := unguarded_partition_pivot v first last in
        introsort_loop depth_limit' (introsort_loop depth_limit' v1 cut last) first cut
    end
  else v.

(** [__sort(first, last, comp)] on the whole vector. *)
Definition sort (v : list A) : list A :=
  let first := 0 in
  let last := length v in
  if first =? last then v
  else final_insertion_sort (introsort_loop (Nat.log2 (last - first) * 2) v first last)
         first last.

End Algorithms.
End Libstdcxx.

(** The program linked with libstdc++. *)
Definition libstdcxxSort : Std.Sort := {| Std.std_sort := @Libstdcxx.sort |}.

(* ===================================================================== *)
(** ** DebuggerPausePositions *)
(* ===================================================================== *)

(** The comparator of [firstPositionAfter]: by line, then by column. *)
Definition positionLess (a b : DebuggerPausePosition) : bool :=
  if (line (position a) =? line (position b))%Z
  then (column (position a) <? column (position b))%Z
  else (line (position a) <? line (position b))%Z.

(** [JSTextPosition(line, column, 0)], the position of a query. *)
Definition queryPosition (line' column' : Z) : JSTextPosition :=
  {| line := line'; column := column'; offset := 0 |}.

(** The probe [{ Invalid, JSTextPosition(line, column, 0) }]; the comparator
    reads its line and its column only. *)
Definition searchProbe (line' column' : Z) : DebuggerPausePosition :=
  {| type := Invalid; position := queryPosition line' column' |}.

(** [firstPositionAfter] as an index into [m_positions] ... *)
Definition firstPositionAfterIndex (m_positions : list DebuggerPausePosition)
    (line column : Z) : nat :=
  Std.lower_bound positionLess m_positions (searchProbe line column).

(** ... and as the iterator it returns. *)
Definition firstPositionAfter (m_positions : list DebuggerPausePosition)
    (line column : Z) : list DebuggerPausePosition :=
  skipn (firstPositionAfterIndex m_positions line column) m_positions.

(** [while (it->type == Enter) ++it;] followed by the read of [*it]: the
    loop has no bounds check. *)
Fixpoint rollForward (it : list DebuggerPausePosition) : Outcome DebuggerPausePosition :=
  match it with
  | [] => OutOfBounds
  | p :: it' => if isEnter (type p) then rollForward it' else Returned p
  end.

(** The [for (; it != m_positions.end(); ++it)] loop that slides to the next
    pause position, skipping functions while [entryStackSize] is not zero. *)
Fixpoint slide (entryStackSize : Z) (it : list DebuggerPausePosition)
    : option JSTextPosition :=
  match it with
  | [] => None
  | slidePosition :: it' =>
      if negb (entryStackSize =? 0)%Z then
        if isEnter (type slidePosition) then slide (entryStackSize + 1)%Z it'
        else if isLeave (type slidePosition) then slide (entryStackSize - 1)%Z it'
        else slide entryStackSize it'
      else if isEnter (type slidePosition) then slide (entryStackSize + 1)%Z it'
      else Some (position slidePosition)
  end.

(** [breakpointLocationForLineColumn(line, column, it)]. *)
Definition breakpointLocationForLineColumnFrom (line' column' : Z)
    (it : list DebuggerPausePosition) : Outcome (option JSTextPosition) :=
  match it with
  | [] => Returned None
  | firstSlidePosition :: it' =>
      if ((line' =? line (position firstSlidePosition))
          && (column' =? column (position firstSlidePosition)))%Z
      then
        match rollForward it with
        | Returned p => Returned (Some (position p))
        | OutOfBounds => OutOfBounds
        end
      else if negb (isEnter (type firstSlidePosition))
      then Returned (Some (position firstSlidePosition))
      else
        let shouldEnterFunction := (line (position firstSlidePosition) =? line')%Z in
        let entryStackSize := if shouldEnterFunction then 0%Z else 1%Z in
        Returned (slide entryStackSize it')
  end.

(** [breakpointLocationForLineColumn(line, column)]. *)
Definition breakpointLocationForLineColumn (m_positions : list DebuggerPausePosition)
    (line column : Z) : Outcome (option JSTextPosition) :=
  breakpointLocationForLineColumnFrom line column
    (firstPositionAfter m_positions line column).

(** The end bound of a range query, the lambda [isAfterEnd]. *)
Definition isAfterEnd (endLine endColumn line' column' : Z) : bool :=
  ((line' =? endLine) && (column' >=? endColumn) || (line' >? endLine))%Z.

(** [Vector::appendIfNotContains], with [operator==] of positions. *)
Definition appendIfNotContains (v : list JSTextPosition) (p : JSTextPosition)
    : list JSTextPosition :=
  if existsb (fun q => JSTextPosition_eqb q p) v then v else v ++ [p].

(** The comparator of the final [std::sort] in [forEachBreakpointLocation]. *)
Definition lineColumnLess (a b : JSTextPosition) : bool :=
  if (line a =? line b)%Z then (column a <? column b)%Z else (line a <? line b)%Z.

(** The first loop of [forEachBreakpointLocation]: from [it] to the end of
    [m_positions], or to the first record at or after the end bound. *)
Fixpoint collectUniquePositions (endLine endColumn : Z)
    (it : list DebuggerPausePosition) (uniquePositions : list JSTextPosition)
    : Outcome (list JSTextPosition) :=
  match it with
  | [] => Returned uniquePositions
  | p :: it' =>
      let line' := line (position p) in
      let column' := column (position p) in
      if isAfterEnd endLine endColumn line' column' then Returned uniquePositions
      else
        match breakpointLocationForLineColumnFrom line' column' (p :: it') with
        | OutOfBounds => OutOfBounds
        | Returned None => collectUniquePositions endLine endColumn it' uniquePositions
        | Returned (Some resolvedPosition) =>
            collectUniquePositions endLine endColumn it'
              (if negb (isAfterEnd endLine endColumn
                          (line resolvedPosition) (column resolvedPosition))
               then appendIfNotContains uniquePositions resolvedPosition
               else uniquePositions)
        end
  end.

(** [forEachBreakpointLocation]: the positions the callback is called with,
    in call order. *)
Definition forEachBreakpointLocation {S : Std.Sort}
    (m_positions : list DebuggerPausePosition)
    (startLine startColumn endLine endColumn : Z) : Outcome (list JSTextPosition) :=
  match collectUniquePositions endLine endColumn
          (firstPositionAfter m_positions startLine startColumn) [] with
  | OutOfBounds => OutOfBounds
  | Returned uniquePositions => Returned (Std.std_sort lineColumnLess uniquePositions)
  end.

(** The comparator of [sort]: by offset, then by the value of the type.
    [ordinal] gives the enumerators their values; the header that fixes them
    is not among the sources, so it is a parameter. *)
Definition offsetTypeLess (ordinal : DebuggerPausePositionType -> Z)
    (a b : DebuggerPausePosition) : bool :=
  if (offset (position a) =? offset (position b))%Z
  then (ordinal (type a) <? ordinal (type b))%Z
  else (offset (position a) <? offset (position b))%Z.

(** [DebuggerPausePositions::sort]. *)
Definition sort {S : Std.Sort} (ordinal : DebuggerPausePositionType -> Z)
    (m_positions : list DebuggerPausePosition) : list DebuggerPausePosition :=
  Std.std_sort (offsetTypeLess ordinal) m_positions.

(** Modelled from the spec: the values of the enumerators, in the order the
    spec requires: the sentinel [Invalid] before every stored type, and
    [Enter] the smallest of the stored ones. *)
Definition declaredOrdinal (t : DebuggerPausePositionType) : Z :=
  match t with
  | Invalid => 0
  | Enter => 1
  | Normal => 2
  | Leave => 3
  end.

(** Every [Enter] record has a [Leave] record later in the sequence. *)
Fixpoint everyEnterHasLeave (l : list DebuggerPausePosition) : bool :=
  match l with
  | [] => true
  | p :: l' =>
      (if isEnter (type p) then existsb (fun q => isLeave (type q)) l' else true)
      && everyEnterHasLeave l'
  end.

(** Order on positions by line, then column. *)
Definition lineColumnLe (a b : JSTextPosition) : Prop :=
  (line a < line b \/ (line a = line b /\ column a <= column b))%Z.

Definition lineColumnLt (a b : JSTextPosition) : Prop :=
  (line a < line b \/ (line a = line b /\ column a < column b))%Z.

(** Records that share a line and a column share their position: the line
    and the column of a record fix its offset. *)
Definition lineColumnFixesPosition (l : list DebuggerPausePosition) : Prop :=
  forall a b, In a l -> In b l ->
    line (position a) = line (position b) ->
    column (position a) = column (position b) ->
    position a = position b.

(** What [sort] compares of a record: its offset and the value of its type. *)
Definition sortKey (ordinal : DebuggerPausePositionType -> Z)
    (r : DebuggerPausePosition) : Z * Z :=
  (offset (position r), ordinal (type r)).

(** Offset order agrees with line and column order on the records of [l]. *)
Definition offsetsFollowLineColumn (l : list DebuggerPausePosition) : Prop :=
  forall a b, In a l -> In b l ->
    (offset (position a) <= offset (position b))%Z ->
    lineColumnLe (position a) (position b).

(** The order [sort] establishes: by offset, ties by the type's value. *)
Definition offsetTypeLe (ordinal : DebuggerPausePositionType -> Z)
    (a b : DebuggerPausePosition) : Prop :=
  (offset (position a) < offset (position b)
   \/ (offset (position a) = offset (position b)
       /\ ordinal (type a) <= ordinal (type b)))%Z.

(** The records of complete scopes, one after the other: records that open
    or close nothing, and [Enter] ... [Leave] pairs around records of the
    same kind. *)
Inductive scopeBody : list DebuggerPausePosition -> Prop :=
| scopeBody_nil : scopeBody []
| scopeBody_plain (p : DebuggerPausePosition) (l : list DebuggerPausePosition) :
    type p <> Enter -> type p <> Leave -> scopeBody l -> scopeBody (p :: l)
| scopeBody_nested (enter leave : DebuggerPausePosition)
    (inner l : list DebuggerPausePosition) :
    type enter = Enter -> type leave = Leave ->
    scopeBody inner -> scopeBody l ->
    scopeBody (enter :: inner ++ leave :: l).

(** [ASSERT(entryStackSize >= 0)] in the slide loop: whether the assertion
    holds each time the loop body is entered, along the run of [slide]. *)
Fixpoint slideAssertions (entryStackSize : Z) (it : list DebuggerPausePosition) : bool :=
  match it with
  | [] => true
  | slidePosition :: it' =>
      (entryStackSize >=? 0)%Z
      && (if negb (entryStackSize =? 0)%Z then
            if isEnter (type slidePosition) then slideAssertions (entryStackSize + 1)%Z it'
            else if isLeave (type slidePosition) then slideAssertions (entryStackSize - 1)%Z it'
            else slideAssertions entryStackSize it'
          else if isEnter (type slidePosition) then slideAssertions (entryStackSize + 1)%Z it'
          else true)
  end.

(** The assertions of a call [breakpointLocationForLineColumn(line, column,
    it)] that reaches the slide loop: the loop starts after the first record,
    with the counter at 0 or 1. *)
Definition breakpointLocationAssertionsFrom (line' column' : Z)
    (it : list DebuggerPausePosition) : bool :=
  match it with
  | [] => true
  | firstSlidePosition :: it' =>
      if ((line' =? line (position firstSlidePosition))
          && (column' =? column (position firstSlidePosition)))%Z
      then true
      else if negb (isEnter (type firstSlidePosition)) then true
      else
        let shouldEnterFunction := (line (position firstSlidePosition) =? line')%Z in
        let entryStackSize := if shouldEnterFunction then 0%Z else 1%Z in
        slideAssertions entryStackSize it'
  end.

(* ===================================================================== *)
(** ** Indexes used as examples *)
(* ===================================================================== *)

(** A function scope: Enter@(3,10), Normal@(4,5), Leave@(5,1), with the
    offsets of the three records. *)
Definition scopeRecords (o1 o2 o3 : Z) : list DebuggerPausePosition :=
  [ mkDebuggerPausePosition Enter (mkJSTextPosition 3 10 o1);
    mkDebuggerPausePosition Normal (mkJSTextPosition 4 5 o2);
    mkDebuggerPausePosition Leave (mkJSTextPosition 5 1 o3) ].

(** Two pause positions on line 1, column 5, at offsets 5 and 6. *)
Definition twinRecords : list DebuggerPausePosition :=
  [ mkDebuggerPausePosition Normal (mkJSTextPosition 1 5 5);
    mkDebuggerPausePosition Normal (mkJSTextPosition 1 5 6) ].

(** Seventeen pause positions of one type at offset 0, on lines 1 to 17. *)
Definition seventeenTiedRecords : list DebuggerPausePosition :=
  map (fun n => mkDebuggerPausePosition Normal (mkJSTextPosition (Z.of_nat n) 0 0))
    (seq 1 17).

(** Two pause positions whose offsets run against their lines: line 2 at
    offset 0, line 1 at offset 1. *)
Definition backwardRecords : list DebuggerPausePosition :=
  [ mkDebuggerPausePosition Normal (mkJSTextPosition 2 0 0);
    mkDebuggerPausePosition Normal (mkJSTextPosition 1 0 1) ].

(* ===================================================================== *)
(** ** Tactics *)
(* ===================================================================== *)

(** The step [count / 2] of a non-empty range is inside it. *)
Ltac half_step n :=
  let d := fresh "d" in
  let Hd := fresh "Hd" in
  assert (Hd : Nat.div2 (S n) < S n) by (apply Nat.lt_div2; lia);
  set (d := Nat.div2 (S n)) in *; clearbody d.

(** Case analysis on every comparison of integers in sight. *)
Ltac z_cases :=
  repeat match goal with
    | H : context [Z.eqb ?a ?b] |- _ => destruct (Z.eqb_spec a b)
    | |- context [Z.eqb ?a ?b] => destruct (Z.eqb_spec a b)
    | H : context [Z.ltb ?a ?b] |- _ => destruct (Z.ltb_spec a b)
    | |- context [Z.ltb ?a ?b] => destruct (Z.ltb_spec a b)
    end;
  try congruence; try lia.


(* ===================================================================== *)
(** ** Facts about the standard algorithms *)
(* ===================================================================== *)

Module StdFacts.
Import Std.

Section Sorted.
Variable A : Type.
Variable comp : A -> A -> bool.
Hypothesis comp_swo : StrictWeakOrder comp.

Lemma swo_asym (a b : A) : comp a b = true -> comp b a = false.
Proof.
  intros Hab. destruct (comp b a) eqn:Hba; [|reflexivity].
  pose proof (swo_trans comp_swo _ _ _ Hab Hba) as Haa.
  rewrite (swo_irrefl comp_swo) in Haa. discriminate.
Qed.

Lemma is_sorted_cons (a : A) (l : list A) :
  is_sorted comp (a :: l) = true <->
  (match l with [] => True | b :: _ => comp b a = false end)
  /\ is_sorted comp l = true.
Proof.
  destruct l as [|b l]; simpl.
  - tauto.
  - rewrite andb_true_iff, negb_true_iff. tauto.
Qed.

Lemma is_sorted_StronglySorted (l : list A) :
  is_sorted comp l = true <-> StronglySorted (notAfter comp) l.
Proof.
  induction l as [|a l IH].
  - simpl. split; [constructor | reflexivity].
  - rewrite is_sorted_cons, IH. split.
    + intros [Hhd Hs]. constructor; [exact Hs|].
      destruct l as [|b l]; [constructor|].
      inversion Hs as [|? ? Hs' Hall]; subst.
      constructor; [exact Hhd|].
      eapply Forall_impl; [|exact Hall].
      intros c Hc. unfold notAfter in *.
      exact (swo_negtrans comp_swo _ _ _ Hc Hhd).
    + intros Hs. inversion Hs as [|? ? Hs' Hall]; subst. split; [|exact Hs'].
      destruct l as [|b l]; [exact I|].
      inversion Hall; subst. assumption.
Qed.

Lemma is_sorted_tail (a : A) (l : list A) :
  is_sorted comp (a :: l) = true -> is_sorted comp l = true.
Proof. rewrite is_sorted_cons. tauto. Qed.

Lemma is_sorted_skipn (n : nat) (l : list A) :
  is_sorted comp l = true -> is_sorted comp (skipn n l) = true.
Proof.
  revert l. induction n as [|n IH]; intros l Hl; [exact Hl|].
  destruct l as [|a l]; [exact Hl|].
  simpl. apply IH. eapply is_sorted_tail; eassumption.
Qed.

Lemma is_sorted_head_notAfter (a : A) (l : list A) :
  is_sorted comp (a :: l) = true -> Forall (fun b => comp b a = false) l.
Proof.
  rewrite is_sorted_StronglySorted. intros Hs.
  inversion Hs; subst. assumption.
Qed.

(** Insertion sort meets the contract of [std::sort]. *)
Lemma insert_permutation (x : A) (l : list A) :
  Permutation (x :: l) (insert comp x l).
Proof.
  induction l as [|y l IH]; simpl; [reflexivity|].
  destruct (comp y x); [|reflexivity].
  rewrite perm_swap. constructor. exact IH.
Qed.

Lemma insert_sorted (x : A) (l : list A) :
  StronglySorted (notAfter comp) l -> StronglySorted (notAfter comp) (insert comp x l).
Proof.
  induction l as [|y l IH]; intros Hs; simpl.
  - repeat constructor.
  - inversion Hs as [|? ? Hs' Hall]; subst.
    destruct (comp y x) eqn:Hyx.
    + constructor; [apply IH; exact Hs'|].
      eapply Permutation_Forall; [apply insert_permutation|].
      constructor; [|exact Hall].
      unfold notAfter. apply swo_asym. exact Hyx.
    + constructor; [exact Hs|].
      constructor; [exact Hyx|].
      eapply Forall_impl; [|exact Hall].
      intros c Hc. unfold notAfter in *.
      exact (swo_negtrans comp_swo _ _ _ Hc Hyx).
Qed.

Lemma insertion_sort_permutation (l : list A) :
  Permutation l (insertion_sort comp l).
Proof.
  induction l as [|x l IH]; simpl; [constructor|].
  rewrite <- insert_permutation. constructor. exact IH.
Qed.

Lemma insertion_sort_sorted (l : list A) :
  is_sorted comp (insertion_sort comp l) = true.
Proof.
  rewrite is_sorted_StronglySorted.
  induction l as [|x l IH]; simpl; [constructor|].
  apply insert_sorted. exact IH.
Qed.
End Sorted.

Section LowerBound.
Variable A : Type.
Variable less : A -> bool.
Variable v : list A.

Lemma lower_bound_loop_range (first count : nat) :
  first <= lower_bound_loop less v first count <= first + count.
Proof.
  funelim (lower_bound_loop less v first count); try lia; half_step n; lia.
Qed.

Lemma lower_bound_loop_partition_point (first count : nat) :
  partitioned less v ->
  first + count <= length v ->
  (forall i x, i < first -> nth_error v i = Some x -> less x = true) ->
  (forall i x, first + count <= i -> nth_error v i = Some x -> less x = false) ->
  (forall i x, i < lower_bound_loop less v first count ->
               nth_error v i = Some x -> less x = true)
  /\ (forall i x, lower_bound_loop less v first count <= i ->
                  nth_error v i = Some x -> less x = false).
Proof.
  intros Hpart.
  funelim (lower_bound_loop less v first count); intros Hlen Hlo Hhi.
  - split; [exact Hlo|]. intros i x Hi. apply Hhi. lia.
  - exfalso. half_step n.
    apply nth_error_None in Heq. lia.
  - half_step n. apply H; try assumption.
    + lia.
    + intros i y Hi Hy.
      eapply (Hpart i (first + d)); eauto. lia.
    + intros i y Hi. apply Hhi. lia.
  - half_step n. apply H; try assumption.
    + lia.
    + intros i y Hi Hy.
      destruct (less y) eqn:Hly; [|reflexivity].
      rewrite <- Heq.
      symmetry. eapply (Hpart (first + d) i); eauto.
Qed.
End LowerBound.

Section SortedLists.
Variable A : Type.

Lemma StronglySorted_nth_error (R : A -> A -> Prop) (l : list A) :
  StronglySorted R l ->
  forall i j x y, i < j -> nth_error l i = Some x -> nth_error l j = Some y -> R x y.
Proof.
  induction 1 as [|a l Hs IH Hall]; intros i j x y Hij Hi Hj.
  - destruct i; discriminate.
  - destruct j as [|j]; [lia|]. simpl in Hj. destruct i as [|i]; simpl in Hi.
    + injection Hi as <-. rewrite Forall_forall in Hall.
      apply Hall. eapply nth_error_In; eassumption.
    + eapply (IH i j); try eassumption. lia.
Qed.

(** Two sorted rearrangements of the same elements are the same list, as
    soon as the order tells apart the elements it holds. *)
Lemma sorted_permutation_unique (R : A -> A -> Prop) (l1 : list A) :
  (forall a b, In a l1 -> In b l1 -> R a b -> R b a -> a = b) ->
  StronglySorted R l1 ->
  forall l2, StronglySorted R l2 -> Permutation l1 l2 -> l1 = l2.
Proof.
  induction l1 as [|a t1 IH]; intros Hanti Hs1 l2 Hs2 Hperm.
  - apply Permutation_nil in Hperm. now subst.
  - destruct l2 as [|b t2].
    + apply Permutation_sym, Permutation_nil in Hperm. discriminate.
    + inversion Hs1 as [|? ? Hs1' Hall1]; subst.
      inversion Hs2 as [|? ? Hs2' Hall2]; subst.
      rewrite Forall_forall in Hall1, Hall2.
      assert (Hab : a = b).
      { assert (Ha : In a (b :: t2))
          by (eapply Permutation_in; [exact Hperm | now left]).
        assert (Hb : In b (a :: t1))
          by (eapply Permutation_in; [apply Permutation_sym; exact Hperm | now left]).
        destruct Ha as [Ha|Ha]; [now symmetry|].
        destruct Hb as [Hb|Hb]; [assumption|].
        apply Hanti; [now left | now right | now apply Hall1 | now apply Hall2]. }
      subst b. f_equal. apply IH; try assumption.
      * intros x y Hx Hy. apply Hanti; now right.
      * eapply Permutation_cons_inv; eassumption.
Qed.

Lemma StronglySorted_map (B : Type) (f : A -> B) (R : B -> B -> Prop) (l : list A) :
  StronglySorted (fun a b => R (f a) (f b)) l -> StronglySorted R (map f l).
Proof.
  induction 1 as [|a l Hs IH Hall]; simpl; constructor; [assumption|].
  rewrite Forall_map. exact Hall.
Qed.

Lemma StronglySorted_impl (R R' : A -> A -> Prop) (l : list A) :
  (forall a b, In a l -> In b l -> R a b -> R' a b) ->
  StronglySorted R l -> StronglySorted R' l.
Proof.
  intros Himp Hs. induction Hs as [|a l Hs IH Hall]; constructor.
  - apply IH. intros x y Hx Hy. apply Himp; now right.
  - rewrite Forall_forall in *. intros x Hx.
    apply Himp; [now left | now right | now apply Hall].
Qed.
End SortedLists.

Section SortedSearch.
Variable A : Type.
Variable comp : A -> A -> bool.
Hypothesis comp_swo : StrictWeakOrder comp.
Variable v : list A.
Hypothesis v_sorted : is_sorted comp v = true.

(** A sorted range is partitioned with respect to every value. *)
Lemma sorted_partitioned (value : A) : partitioned (fun x => comp x value) v.
Proof.
  intros i j x y Hij Hi Hj Hy.
  destruct (Nat.eq_dec i j) as [->|Hne].
  - rewrite Hi in Hj. injection Hj as ->. exact Hy.
  - apply (is_sorted_StronglySorted comp_swo) in v_sorted.
    assert (Hxy : notAfter comp x y)
      by (eapply StronglySorted_nth_error; try eassumption; lia).
    destruct (comp x value) eqn:Hx; [reflexivity|].
    rewrite (swo_negtrans comp_swo _ _ _ Hxy Hx) in Hy. discriminate.
Qed.

(** [std::lower_bound] returns the partition point. *)
Lemma lower_bound_partition_point (value : A) :
  lower_bound comp v value <= length v
  /\ (forall i x, i < lower_bound comp v value ->
                  nth_error v i = Some x -> comp x value = true)
  /\ (forall i x, lower_bound comp v value <= i ->
                  nth_error v i = Some x -> comp x value = false).
Proof.
  unfold lower_bound. split.
  - pose proof (lower_bound_loop_range (fun x => comp x value) v 0 (length v)). lia.
  - apply (lower_bound_loop_partition_point (less := fun x => comp x value)).
    + apply sorted_partitioned.
    + simpl. lia.
    + intros i x Hi. lia.
    + intros i x Hi Hx. assert (nth_error v i = None) by (apply nth_error_None; lia).
      congruence.
Qed.
End SortedSearch.

(** Both implementations meet the contract of [std::sort]. *)
Lemma stableSort_contract : SortContract stableSort.
Proof.
  constructor; intros A comp l Hswo; simpl.
  - apply insertion_sort_permutation.
  - now apply insertion_sort_sorted.
Qed.

Lemma reversingSort_contract : SortContract reversingSort.
Proof.
  constructor; intros A comp l Hswo; simpl.
  - rewrite <- insertion_sort_permutation. apply Permutation_rev.
  - now apply insertion_sort_sorted.
Qed.

End StdFacts.


(* ===================================================================== *)
(** ** Facts about the comparators *)
(* ===================================================================== *)

Import Std StdFacts.

Lemma positionLess_swo : StrictWeakOrder positionLess.
Proof. constructor; intros; unfold positionLess in *; z_cases. Qed.

Lemma lineColumnLess_swo : StrictWeakOrder lineColumnLess.
Proof. constructor; intros; unfold lineColumnLess in *; z_cases. Qed.

Lemma offsetTypeLess_swo (ordinal : DebuggerPausePositionType -> Z) :
  StrictWeakOrder (offsetTypeLess ordinal).
Proof. constructor; intros; unfold offsetTypeLess in *; z_cases. Qed.

Lemma positionLess_lineColumnLess (a b : DebuggerPausePosition) :
  positionLess a b = lineColumnLess (position a) (position b).
Proof. reflexivity. Qed.

Lemma lineColumnLess_true (a b : JSTextPosition) :
  lineColumnLess a b = true <-> lineColumnLt a b.
Proof. unfold lineColumnLess, lineColumnLt. split; intros; z_cases. Qed.

Lemma lineColumnLess_false (a b : JSTextPosition) :
  lineColumnLess a b = false <-> lineColumnLe b a.
Proof. unfold lineColumnLess, lineColumnLe. split; intros; z_cases. Qed.

Lemma offsetTypeLess_false (ordinal : DebuggerPausePositionType -> Z)
    (a b : DebuggerPausePosition) :
  offsetTypeLess ordinal a b = false <-> offsetTypeLe ordinal b a.
Proof. unfold offsetTypeLess, offsetTypeLe. split; intros; z_cases. Qed.

Lemma JSTextPosition_eqb_eq (a b : JSTextPosition) :
  JSTextPosition_eqb a b = true <-> a = b.
Proof.
  unfold JSTextPosition_eqb. rewrite !andb_true_iff, !Z.eqb_eq.
  destruct a, b; simpl. split.
  - intros [[-> ->] ->]. reflexivity.
  - intros [= -> -> ->]. auto.
Qed.

Lemma lineColumnLe_antisym (a b : JSTextPosition) :
  lineColumnLe a b -> lineColumnLe b a -> line a = line b /\ column a = column b.
Proof. unfold lineColumnLe. lia. Qed.

(* ===================================================================== *)
(** ** firstPositionAfter *)
(* ===================================================================== *)

Section FirstPositionAfter.
Variable m_positions : list DebuggerPausePosition.
Hypothesis m_positions_sorted : is_sorted positionLess m_positions = true.
Variables line' column' : Z.

Lemma firstPositionAfterIndex_partition_point :
  firstPositionAfterIndex m_positions line' column' <= length m_positions
  /\ (forall j r, j < firstPositionAfterIndex m_positions line' column' ->
                  nth_error m_positions j = Some r ->
                  lineColumnLt (position r) (queryPosition line' column'))
  /\ (forall j r, firstPositionAfterIndex m_positions line' column' <= j ->
                  nth_error m_positions j = Some r ->
                  lineColumnLe (queryPosition line' column') (position r)).
Proof.
  destruct (lower_bound_partition_point positionLess_swo m_positions m_positions_sorted
              (searchProbe line' column')) as (Hlen & Hlo & Hhi).
  split; [exact Hlen|]. split.
  - intros j r Hj Hr. apply lineColumnLess_true. exact (Hlo j r Hj Hr).
  - intros j r Hj Hr. apply lineColumnLess_false. exact (Hhi j r Hj Hr).
Qed.

(** The iterator splits the vector: everything before it is less than the
    query, everything from it on is not. *)
Lemma firstPositionAfter_split :
  m_positions
  = firstn (firstPositionAfterIndex m_positions line' column') m_positions
    ++ firstPositionAfter m_positions line' column'
  /\ Forall (fun r => lineColumnLt (position r) (queryPosition line' column'))
       (firstn (firstPositionAfterIndex m_positions line' column') m_positions)
  /\ Forall (fun r => lineColumnLe (queryPosition line' column') (position r))
       (firstPositionAfter m_positions line' column').
Proof.
  destruct firstPositionAfterIndex_partition_point as (Hlen & Hlo & Hhi).
  unfold firstPositionAfter. split; [symmetry; apply firstn_skipn|]. split.
  - apply Forall_forall. intros r Hr.
    apply In_nth_error in Hr. destruct Hr as [j Hj].
    assert (Hlt : j < firstPositionAfterIndex m_positions line' column').
    { assert (j < length (firstn (firstPositionAfterIndex m_positions line' column')
                            m_positions))
        by (apply nth_error_Some; congruence).
      rewrite length_firstn in *. lia. }
    rewrite nth_error_firstn in Hj.
    destruct (Nat.ltb_spec j (firstPositionAfterIndex m_positions line' column'));
      [|lia].
    eapply Hlo; eassumption.
  - apply Forall_forall. intros r Hr.
    apply In_nth_error in Hr. destruct Hr as [j Hj].
    rewrite nth_error_skipn in Hj.
    eapply Hhi; [|exact Hj]. lia.
Qed.

Lemma firstPositionAfter_sorted :
  is_sorted positionLess (firstPositionAfter m_positions line' column') = true.
Proof. apply is_sorted_skipn, m_positions_sorted. Qed.
End FirstPositionAfter.

Lemma firstPositionAfter_incl (m_positions : list DebuggerPausePosition)
    (line' column' : Z) (r : DebuggerPausePosition) :
  In r (firstPositionAfter m_positions line' column') -> In r m_positions.
Proof.
  unfold firstPositionAfter. intros Hr.
  rewrite <- (firstn_skipn (firstPositionAfterIndex m_positions line' column')
                m_positions).
  apply in_or_app. now right.
Qed.

(** C5. On an index sorted by line and column, [firstPositionAfter(L, C)]
    stands at the first record whose position is not less than (L, C) by
    line, then column: every record before it is less, every record from it
    on is not; it is the end iterator when every record is less; and a second
    call on the same index returns the same iterator. *)
Theorem firstPositionAfter_first_not_less
    (m_positions : list DebuggerPausePosition) (L C : Z) :
  is_sorted positionLess m_positions = true ->
  firstPositionAfterIndex m_positions L C <= length m_positions
  /\ firstPositionAfter m_positions L C
     = skipn (firstPositionAfterIndex m_positions L C) m_positions
  /\ (forall j r, j < firstPositionAfterIndex m_positions L C ->
                  nth_error m_positions j = Some r ->
                  lineColumnLt (position r) (queryPosition L C))
  /\ (forall j r, firstPositionAfterIndex m_positions L C <= j ->
                  nth_error m_positions j = Some r ->
                  lineColumnLe (queryPosition L C) (position r))
  /\ ((forall r, In r m_positions -> lineColumnLt (position r) (queryPosition L C)) ->
      firstPositionAfterIndex m_positions L C = length m_positions
      /\ firstPositionAfter m_positions L C = [])
  /\ (forall m_positions', m_positions' = m_positions ->
        firstPositionAfter m_positions' L C = firstPositionAfter m_positions L C).
Proof.
  intros Hsorted.
  destruct (firstPositionAfterIndex_partition_point _ Hsorted L C) as (Hlen & Hlo & Hhi).
  split; [exact Hlen|]. split; [reflexivity|].
  split; [exact Hlo|]. split; [exact Hhi|]. split.
  - intros Hless.
    assert (Hend : firstPositionAfterIndex m_positions L C = length m_positions).
    { destruct (Nat.eq_dec (firstPositionAfterIndex m_positions L C) (length m_positions))
        as [Heq|Hne]; [exact Heq|exfalso].
      destruct (nth_error m_positions (firstPositionAfterIndex m_positions L C))
        as [r|] eqn:Hr.
      - pose proof (Hhi _ r (Nat.le_refl _) Hr) as Hle.
        pose proof (Hless r (nth_error_In _ _ Hr)) as Hlt.
        unfold lineColumnLe, lineColumnLt in *. lia.
      - apply nth_error_None in Hr. lia. }
    split; [exact Hend|].
    unfold firstPositionAfter. rewrite Hend. apply skipn_all.
  - intros m' ->. reflexivity.
Qed.

(* ===================================================================== *)
(** ** breakpointLocationForLineColumn *)
(* ===================================================================== *)

Lemma isEnter_false (t : DebuggerPausePositionType) :
  isEnter t = false <-> t <> Enter.
Proof. destruct t; simpl; split; congruence. Qed.

Lemma isEnter_true (t : DebuggerPausePositionType) :
  isEnter t = true <-> t = Enter.
Proof. destruct t; simpl; split; congruence. Qed.


(** Where the roll-forward loop stops, it stands on a record that is not an
    [Enter], and it has passed nothing but [Enter] records. *)
Lemma rollForward_Returned (it : list DebuggerPausePosition) (p : DebuggerPausePosition) :
  rollForward it = Returned p ->
  exists passed rest,
    it = passed ++ p :: rest
    /\ Forall (fun q => type q = Enter) passed
    /\ type p <> Enter.
Proof.
  induction it as [|q it IH]; simpl; [discriminate|].
  destruct (isEnter (type q)) eqn:Hq.
  - intros Hp. destruct (IH Hp) as (passed & rest & -> & Hpassed & Hne).
    exists (q :: passed), rest. repeat split; try assumption.
    constructor; [now apply isEnter_true | assumption].
  - intros [= ->]. exists [], it. repeat split; [constructor | now apply isEnter_false].
Qed.

(** The loop stays inside the vector as soon as some record in front of the
    iterator is not an [Enter], and it stops at or before that record. *)
Lemma rollForward_reaches (it : list DebuggerPausePosition) (r : DebuggerPausePosition) :
  In r it -> type r <> Enter ->
  exists passed p rest,
    rollForward it = Returned p
    /\ it = passed ++ p :: rest
    /\ In r (p :: rest).
Proof.
  induction it as [|q it IH]; simpl; [contradiction|].
  intros Hin Hr. destruct (isEnter (type q)) eqn:Hq.
  - destruct Hin as [->|Hin]; [apply isEnter_true in Hq; contradiction|].
    destruct (IH Hin Hr) as (passed & p & rest & Hroll & -> & Hrest).
    exists (q :: passed), p, rest. auto.
  - exists [], q, it. auto.
Qed.

Lemma everyEnterHasLeave_tail (p : DebuggerPausePosition) (l : list DebuggerPausePosition) :
  everyEnterHasLeave (p :: l) = true -> everyEnterHasLeave l = true.
Proof. simpl. rewrite andb_true_iff. tauto. Qed.

Lemma everyEnterHasLeave_skipn (n : nat) (l : list DebuggerPausePosition) :
  everyEnterHasLeave l = true -> everyEnterHasLeave (skipn n l) = true.
Proof.
  revert l. induction n as [|n IH]; intros l Hl; [exact Hl|].
  destruct l as [|p l]; [exact Hl|].
  simpl. apply IH. eapply everyEnterHasLeave_tail; eassumption.
Qed.

(** In a well-formed range the loop always finds a record to stop at. *)
Lemma rollForward_wellFormed (it : list DebuggerPausePosition) :
  it <> [] -> everyEnterHasLeave it = true ->
  exists p, rollForward it = Returned p.
Proof.
  induction it as [|q it IH]; [congruence|].
  intros _ Hwf. simpl. destruct (isEnter (type q)) eqn:Hq; [|eauto].
  simpl in Hwf. rewrite Hq in Hwf. apply andb_true_iff in Hwf.
  destruct Hwf as [Hleave Hwf].
  apply IH; [|exact Hwf].
  destruct it; [discriminate Hleave | congruence].
Qed.

(** The slide loop returns the position of a record it has in front of it,
    and never that of an [Enter]. *)
Lemma slide_Some (it : list DebuggerPausePosition) :
  forall (entryStackSize : Z) (p : JSTextPosition),
    slide entryStackSize it = Some p ->
    exists r, In r it /\ position r = p /\ type r <> Enter.
Proof.
  induction it as [|q it IH]; intros n p; simpl; [discriminate|].
  intros Hp.
  assert (Hrec : forall m, slide m it = Some p ->
                           exists r, (q = r \/ In r it) /\ position r = p /\ type r <> Enter).
  { intros m Hm. destruct (IH m p Hm) as (r & Hr & Hpos & Hty). eauto. }
  destruct (negb (n =? 0)%Z).
  - destruct (isEnter (type q)); [eauto|].
    destruct (isLeave (type q)); eauto.
  - destruct (isEnter (type q)) eqn:Hq; [eauto|].
    injection Hp as <-. exists q. repeat split; [now left | now apply isEnter_false].
Qed.

Lemma breakpointLocationForLineColumnFrom_Some
    (line' column' : Z) (it : list DebuggerPausePosition) (p : JSTextPosition) :
  breakpointLocationForLineColumnFrom line' column' it = Returned (Some p) ->
  exists r, In r it /\ position r = p /\ type r <> Enter.
Proof.
  unfold breakpointLocationForLineColumnFrom.
  destruct it as [|firstSlidePosition it']; [discriminate|].
  destruct (_ && _)%bool.
  - destruct (rollForward (firstSlidePosition :: it')) as [landed|] eqn:Hroll;
      [|discriminate].
    intros [= <-].
    destruct (rollForward_Returned _ Hroll) as (passed & rest & Heq & _ & Hne).
    exists landed. repeat split; [|assumption].
    rewrite Heq. apply in_or_app. right. now left.
  - destruct (isEnter (type firstSlidePosition)) eqn:Hq; simpl.
    + intros [= Hslide].
      destruct (slide_Some _ _ Hslide) as (r & Hr & Hpos & Hty).
      exists r. repeat split; [now right | assumption..].
    + intros [= <-]. exists firstSlidePosition.
      repeat split; [now left | now apply isEnter_false].
Qed.

(** C10. Whenever [breakpointLocationForLineColumn] returns a position, it is
    the position of a record of the index whose type is not [Enter]; this
    holds for every index, so in particular for the sorted, well-formed
    ones. *)
Theorem breakpointLocationForLineColumn_never_Enter
    (m_positions : list DebuggerPausePosition) (L C : Z) (p : JSTextPosition) :
  breakpointLocationForLineColumn m_positions L C = Returned (Some p) ->
  exists r, In r m_positions /\ position r = p /\ type r <> Enter.
Proof.
  unfold breakpointLocationForLineColumn. intros Hp.
  destruct (breakpointLocationForLineColumnFrom_Some _ _ _ Hp) as (r & Hr & Hpos & Hty).
  exists r. repeat split; try assumption.
  eapply firstPositionAfter_incl; eassumption.
Qed.

Lemma StronglySorted_app_r (A : Type) (R : A -> A -> Prop) (l1 l2 : list A) :
  StronglySorted R (l1 ++ l2) -> StronglySorted R l2.
Proof.
  induction l1 as [|a l1 IH]; simpl; [auto|].
  intros Hs. inversion Hs; subst. auto.
Qed.

Lemma sorted_head_lineColumnLe (first : DebuggerPausePosition)
    (it' : list DebuggerPausePosition) (r : DebuggerPausePosition) :
  is_sorted positionLess (first :: it') = true ->
  In r (first :: it') ->
  lineColumnLe (position first) (position r).
Proof.
  intros Hs [<-|Hr].
  - unfold lineColumnLe. lia.
  - pose proof (is_sorted_head_notAfter positionLess_swo _ _ Hs) as Hall.
    rewrite Forall_forall in Hall. apply lineColumnLess_false. exact (Hall r Hr).
Qed.

(** When some record stands exactly at the query, the iterator stands on a
    record at the query too, with that record at or after it. *)
Lemma firstPositionAfter_exact (m_positions : list DebuggerPausePosition)
    (L C : Z) (r : DebuggerPausePosition) :
  is_sorted positionLess m_positions = true ->
  In r m_positions -> line (position r) = L -> column (position r) = C ->
  exists first it',
    firstPositionAfter m_positions L C = first :: it'
    /\ line (position first) = L /\ column (position first) = C
    /\ In r (first :: it').
Proof.
  intros Hsorted Hr HL HC.
  destruct (firstPositionAfter_split _ Hsorted L C) as (Hsplit & Hpre & Hit).
  pose proof (firstPositionAfter_sorted _ Hsorted L C) as Hits.
  rewrite Forall_forall in Hpre, Hit.
  rewrite Hsplit in Hr. apply in_app_or in Hr. destruct Hr as [Hr|Hr].
  - apply Hpre in Hr. unfold lineColumnLt, queryPosition in Hr. simpl in Hr. lia.
  - destruct (firstPositionAfter m_positions L C) as [|first it'] eqn:Hfpa;
      [contradiction|].
    exists first, it'.
    pose proof (Hit first (or_introl eq_refl)) as Hlo.
    pose proof (sorted_head_lineColumnLe Hits Hr) as Hhi.
    unfold lineColumnLe, queryPosition in *. simpl in *.
    repeat split; try assumption; lia.
Qed.

(** C3. On an index sorted by line and column, a query (L, C) at which a
    [Normal] record stands is resolved to a position on line L, column C. *)
Theorem breakpointLocationForLineColumn_exact_Normal
    (m_positions : list DebuggerPausePosition) (L C : Z) (r : DebuggerPausePosition) :
  is_sorted positionLess m_positions = true ->
  In r m_positions -> type r = Normal ->
  line (position r) = L -> column (position r) = C ->
  exists p,
    breakpointLocationForLineColumn m_positions L C = Returned (Some p)
    /\ line p = L /\ column p = C.
Proof.
  intros Hsorted Hr Hty HL HC.
  destruct (@firstPositionAfter_exact m_positions L C r Hsorted Hr HL HC)
    as (first & it' & Hfpa & HfL & HfC & Hrit).
  pose proof (firstPositionAfter_sorted _ Hsorted L C) as Hits.
  rewrite Hfpa in Hits.
  assert (Hne : type r <> Enter) by congruence.
  destruct (rollForward_reaches _ _ Hrit Hne) as (passed & landed & rest & Hroll & Heq & Hrest).
  exists (position landed).
  unfold breakpointLocationForLineColumn. rewrite Hfpa.
  unfold breakpointLocationForLineColumnFrom.
  rewrite HfL, HfC, !Z.eqb_refl. simpl andb. cbv iota. rewrite Hroll.
  split; [reflexivity|].
  assert (Hlo : lineColumnLe (position first) (position landed)).
  { apply (sorted_head_lineColumnLe Hits). rewrite Heq.
    apply in_or_app. right. now left. }
  assert (Hhi : lineColumnLe (position landed) (position r)).
  { apply (is_sorted_StronglySorted positionLess_swo) in Hits.
    rewrite Heq in Hits. apply StronglySorted_app_r in Hits.
    apply (is_sorted_StronglySorted positionLess_swo) in Hits.
    eapply sorted_head_lineColumnLe; eassumption. }
  unfold lineColumnLe in *. lia.
Qed.

(** C8. On a sorted index in which every [Enter] has a later [Leave], a query
    that stands exactly on an [Enter] record takes the exact-match branch,
    and its roll-forward loop stops on a record of the index: no read of the
    loop is out of bounds, and the function returns that record's
    position. *)
Theorem rollForward_in_bounds
    (m_positions : list DebuggerPausePosition) (L C : Z) (r : DebuggerPausePosition) :
  is_sorted positionLess m_positions = true ->
  everyEnterHasLeave m_positions = true ->
  In r m_positions -> type r = Enter ->
  line (position r) = L -> column (position r) = C ->
  exists first it' landed,
    firstPositionAfter m_positions L C = first :: it'
    /\ line (position first) = L /\ column (position first) = C
    /\ rollForward (first :: it') = Returned landed
    /\ In landed m_positions /\ type landed <> Enter
    /\ breakpointLocationForLineColumn m_positions L C
       = Returned (Some (position landed)).
Proof.
  intros Hsorted Hwf Hr Hty HL HC.
  destruct (@firstPositionAfter_exact m_positions L C r Hsorted Hr HL HC)
    as (first & it' & Hfpa & HfL & HfC & _).
  assert (Hwf' : everyEnterHasLeave (first :: it') = true).
  { rewrite <- Hfpa. apply everyEnterHasLeave_skipn. exact Hwf. }
  destruct (rollForward_wellFormed (it := first :: it')) as [landed Hroll];
    [discriminate | exact Hwf' |].
  destruct (rollForward_Returned _ Hroll) as (passed & rest & Heq & _ & Hne).
  exists first, it', landed. repeat split; try assumption.
  - apply (firstPositionAfter_incl m_positions L C). rewrite Hfpa, Heq.
    apply in_or_app. right. now left.
  - unfold breakpointLocationForLineColumn. rewrite Hfpa.
    unfold breakpointLocationForLineColumnFrom.
    rewrite HfL, HfC, !Z.eqb_refl. simpl andb. cbv iota. rewrite Hroll. reflexivity.
Qed.

(** A well-formed index is never read out of bounds, whatever the query. *)
Lemma breakpointLocationForLineColumnFrom_wellFormed
    (line' column' : Z) (it : list DebuggerPausePosition) :
  everyEnterHasLeave it = true ->
  exists result, breakpointLocationForLineColumnFrom line' column' it = Returned result.
Proof.
  intros Hwf. unfold breakpointLocationForLineColumnFrom.
  destruct it as [|firstSlidePosition it']; [eauto|].
  destruct (_ && _)%bool.
  - destruct (rollForward_wellFormed (it := firstSlidePosition :: it')) as [p ->];
      [discriminate | exact Hwf | eauto].
  - destruct (negb _); eauto.
Qed.

(** C1. With the records Enter@(3,10), Normal@(4,5), Leave@(5,1), whatever
    their offsets, the query (2,0) skips the scope: it returns no position
    when the index ends with the [Leave], and the position of the record
    after the [Leave] when the sorted index goes on with a record that is not
    an [Enter]. *)
Theorem breakpointLocationForLineColumn_skips_scope (o1 o2 o3 : Z) :
  breakpointLocationForLineColumn (scopeRecords o1 o2 o3) 2 0 = Returned None
  /\ forall next rest,
       is_sorted positionLess (scopeRecords o1 o2 o3 ++ next :: rest) = true ->
       type next <> Enter ->
       breakpointLocationForLineColumn (scopeRecords o1 o2 o3 ++ next :: rest) 2 0
       = Returned (Some (position next)).
Proof.
  split; [reflexivity|].
  intros next rest Hsorted Hne.
  assert (Hidx : firstPositionAfterIndex (scopeRecords o1 o2 o3 ++ next :: rest) 2 0 = 0).
  { destruct (firstPositionAfterIndex_partition_point _ Hsorted 2 0) as (_ & Hlo & _).
    destruct (firstPositionAfterIndex (scopeRecords o1 o2 o3 ++ next :: rest) 2 0) as [|i];
      [reflexivity|exfalso].
    specialize (Hlo 0 _ (Nat.lt_0_succ i) eq_refl).
    unfold lineColumnLt in Hlo. simpl in Hlo. lia. }
  unfold breakpointLocationForLineColumn, firstPositionAfter. rewrite Hidx.
  apply isEnter_false in Hne. simpl. rewrite Hne. reflexivity.
Qed.

(** C2. With the records Enter@(3,10), Normal@(4,5), Leave@(5,1), whatever
    their offsets, the query (3,10) steps into the scope and returns the
    position of the [Normal] record, (4,5). *)
Theorem breakpointLocationForLineColumn_steps_into_scope (o1 o2 o3 : Z) :
  breakpointLocationForLineColumn (scopeRecords o1 o2 o3) 3 10
  = Returned (Some (mkJSTextPosition 4 5 o2)).
Proof. reflexivity. Qed.

(* ===================================================================== *)
(** ** forEachBreakpointLocation *)
(* ===================================================================== *)

Lemma isAfterEnd_true (endLine endColumn line' column' : Z) :
  isAfterEnd endLine endColumn line' column' = true
  <-> (endLine < line' \/ (line' = endLine /\ endColumn <= column'))%Z.
Proof.
  unfold isAfterEnd.
  rewrite orb_true_iff, andb_true_iff, Z.eqb_eq, Z.geb_leb, Z.leb_le, Z.gtb_ltb, Z.ltb_lt.
  tauto.
Qed.

Lemma sort_nil (S : Sort) (HS : SortContract S) (A : Type) (comp : A -> A -> bool) :
  StrictWeakOrder comp -> Std.std_sort comp [] = [].
Proof.
  intros Hswo. apply Permutation_nil. apply std_sort_permutation. exact Hswo.
Qed.

Lemma appendIfNotContains_NoDup (v : list JSTextPosition) (p : JSTextPosition) :
  NoDup v -> NoDup (appendIfNotContains v p).
Proof.
  intros Hv. unfold appendIfNotContains.
  destruct (existsb _ v) eqn:Hex; [exact Hv|].
  apply NoDup_rev in Hv. rewrite <- (rev_involutive (v ++ [p])), rev_app_distr.
  apply NoDup_rev. simpl. constructor; [|exact Hv].
  rewrite <- in_rev. intros Hin.
  assert (Htrue : existsb (fun q => JSTextPosition_eqb q p) v = true).
  { apply existsb_exists. exists p. split; [exact Hin|]. now apply JSTextPosition_eqb_eq. }
  congruence.
Qed.

Lemma appendIfNotContains_In (v : list JSTextPosition) (p q : JSTextPosition) :
  In q (appendIfNotContains v p) -> In q v \/ q = p.
Proof.
  unfold appendIfNotContains. destruct (existsb _ v); [auto|].
  intros Hq. apply in_app_or in Hq. destruct Hq as [Hq|[<-|[]]]; auto.
Qed.

Section Collect.
Variables endLine endColumn : Z.

Lemma collectUniquePositions_cons (p : DebuggerPausePosition)
    (it' : list DebuggerPausePosition) (uniquePositions : list JSTextPosition) :
  collectUniquePositions endLine endColumn (p :: it') uniquePositions
  = if isAfterEnd endLine endColumn (line (position p)) (column (position p))
    then Returned uniquePositions
    else
      match breakpointLocationForLineColumnFrom
              (line (position p)) (column (position p)) (p :: it') with
      | OutOfBounds => OutOfBounds
      | Returned None => collectUniquePositions endLine endColumn it' uniquePositions
      | Returned (Some resolvedPosition) =>
          collectUniquePositions endLine endColumn it'
            (if negb (isAfterEnd endLine endColumn
                        (line resolvedPosition) (column resolvedPosition))
             then appendIfNotContains uniquePositions resolvedPosition
             else uniquePositions)
      end.
Proof. reflexivity. Qed.

Lemma collectUniquePositions_NoDup (it : list DebuggerPausePosition) :
  forall uniquePositions collected,
    NoDup uniquePositions ->
    collectUniquePositions endLine endColumn it uniquePositions = Returned collected ->
    NoDup collected.
Proof.
  induction it as [|p it' IH]; intros acc out Hacc.
  - intros [= <-]. exact Hacc.
  - rewrite collectUniquePositions_cons.
    destruct (isAfterEnd _ _ _ _); [intros [= <-]; exact Hacc|].
    destruct (breakpointLocationForLineColumnFrom _ _ _) as [[resolved|]|];
      [| now apply IH | discriminate].
    apply IH. destruct (negb _); [now apply appendIfNotContains_NoDup | exact Hacc].
Qed.

Lemma collectUniquePositions_In (it : list DebuggerPausePosition) :
  forall uniquePositions collected,
    collectUniquePositions endLine endColumn it uniquePositions = Returned collected ->
    forall q, In q collected ->
      In q uniquePositions \/ exists r, In r it /\ position r = q.
Proof.
  induction it as [|p it' IH]; intros acc out.
  - intros [= <-]. auto.
  - rewrite collectUniquePositions_cons.
    destruct (isAfterEnd _ _ _ _); [intros [= <-]; auto|].
    destruct (breakpointLocationForLineColumnFrom _ _ _) as [[resolved|]|] eqn:Hres;
      [| | discriminate].
    + intros Hout q Hq.
      destruct (IH _ _ Hout q Hq) as [Hacc|(r & Hr & Hpos)].
      * assert (Hq' : In q acc \/ q = resolved).
        { destruct (negb _); [now apply appendIfNotContains_In | now left]. }
        destruct Hq' as [Hq'| ->]; [now left|]. right.
        destruct (breakpointLocationForLineColumnFrom_Some _ _ _ Hres)
          as (r & Hr & Hpos & _).
        eauto.
      * right. exists r. split; [now right | assumption].
    + intros Hout q Hq.
      destruct (IH _ _ Hout q Hq) as [Hacc|(r & Hr & Hpos)]; [now left|].
      right. exists r. split; [now right | assumption].
Qed.

(** On a well-formed range the loop reads no record out of bounds. *)
Lemma collectUniquePositions_wellFormed (it : list DebuggerPausePosition) :
  everyEnterHasLeave it = true ->
  forall uniquePositions,
    exists collected,
      collectUniquePositions endLine endColumn it uniquePositions = Returned collected.
Proof.
  induction it as [|p it' IH]; intros Hwf acc; [simpl; eauto|].
  rewrite collectUniquePositions_cons.
  destruct (isAfterEnd _ _ _ _); [eauto|].
  destruct (breakpointLocationForLineColumnFrom_wellFormed
              (line (position p)) (column (position p)) (p :: it') Hwf) as [result ->].
  apply everyEnterHasLeave_tail in Hwf.
  destruct result; apply IH; exact Hwf.
Qed.
End Collect.

Lemma StronglySorted_NoDup_strict (A : Type) (R : A -> A -> Prop) (l : list A) :
  StronglySorted R l -> NoDup l -> StronglySorted (fun a b => R a b /\ a <> b) l.
Proof.
  induction 1 as [|a l Hs IH Hall]; intros Hnd; constructor.
  - apply IH. now inversion Hnd.
  - inversion Hnd as [|? ? Hnotin _]; subst.
    rewrite Forall_forall in *. intros b Hb. split; [now apply Hall|].
    intros ->. contradiction.
Qed.

(** What the callback sees, for every implementation of [std::sort]. *)
Lemma forEachBreakpointLocation_visited (S : Sort) (HS : SortContract S)
    (m_positions : list DebuggerPausePosition)
    (startLine startColumn endLine endColumn : Z) (visited : list JSTextPosition) :
  forEachBreakpointLocation m_positions startLine startColumn endLine endColumn
  = Returned visited ->
  NoDup visited
  /\ StronglySorted lineColumnLe visited
  /\ (forall q, In q visited -> exists r, In r m_positions /\ position r = q).
Proof.
  unfold forEachBreakpointLocation.
  destruct (collectUniquePositions _ _ _ _) as [collected|] eqn:Hcollect; [|discriminate].
  intros [= <-].
  pose proof (std_sort_permutation collected lineColumnLess_swo) as Hperm.
  pose proof (std_sort_sorted collected lineColumnLess_swo) as Hsorted.
  split; [|split].
  - eapply Permutation_NoDup; [exact Hperm|].
    eapply collectUniquePositions_NoDup; [|exact Hcollect]. constructor.
  - apply (is_sorted_StronglySorted lineColumnLess_swo) in Hsorted.
    eapply StronglySorted_impl; [|exact Hsorted].
    intros a b _ _ Hab. apply lineColumnLess_false. exact Hab.
  - intros q Hq. apply (Permutation_in _ (Permutation_sym Hperm)) in Hq.
    destruct (collectUniquePositions_In _ _ _ _ Hcollect q Hq) as [[]|(r & Hr & Hpos)].
    exists r. split; [|exact Hpos].
    eapply firstPositionAfter_incl; eassumption.
Qed.

(** X4. On an index in which every [Enter] has a later [Leave], the
    enumeration comes to its end: no record is read out of bounds. *)
Theorem forEachBreakpointLocation_wellFormed (S : Sort)
    (m_positions : list DebuggerPausePosition)
    (startLine startColumn endLine endColumn : Z) :
  everyEnterHasLeave m_positions = true ->
  exists visited,
    forEachBreakpointLocation m_positions startLine startColumn endLine endColumn
    = Returned visited.
Proof.
  intros Hwf. unfold forEachBreakpointLocation.
  destruct (collectUniquePositions_wellFormed endLine endColumn
              (firstPositionAfter m_positions startLine startColumn)
              (everyEnterHasLeave_skipn _ _ Hwf) []) as [collected ->].
  eauto.
Qed.

(** C4, as amended. For every index and every range, the callback is never
    called twice with the same position (line, column and offset), and the
    positions it is called with are non-decreasing by line, then column.
    When the line and the column of a record fix its offset, no (line,
    column) pair is visited twice: the sequence is strictly increasing. *)
Theorem forEachBreakpointLocation_increasing (S : Sort) (HS : SortContract S)
    (m_positions : list DebuggerPausePosition)
    (startLine startColumn endLine endColumn : Z) (visited : list JSTextPosition) :
  forEachBreakpointLocation m_positions startLine startColumn endLine endColumn
  = Returned visited ->
  NoDup visited
  /\ StronglySorted lineColumnLe visited
  /\ (lineColumnFixesPosition m_positions -> StronglySorted lineColumnLt visited).
Proof.
  intros Hvisited.
  destruct (forEachBreakpointLocation_visited _ _ _ _ _ _ Hvisited)
    as (Hnodup & Hsorted & Hfrom).
  split; [exact Hnodup|]. split; [exact Hsorted|].
  intros Hfixes.
  eapply StronglySorted_impl;
    [|exact (StronglySorted_NoDup_strict Hsorted Hnodup)].
  intros a b Ha Hb [Hle Hne]. cbv beta in *.
  destruct (Hfrom a Ha) as (ra & Hra & <-).
  destruct (Hfrom b Hb) as (rb & Hrb & <-).
  unfold lineColumnLe, lineColumnLt in *.
  destruct Hle as [Hlt|[Hline Hcol]]; [now left|]. right. split; [exact Hline|].
  destruct (Z.eq_dec (column (position ra)) (column (position rb))) as [Heq|Hneq]; [|lia].
  exfalso. apply Hne. now apply Hfixes.
Qed.

(** C9. On a sorted index, a range whose start is its end visits nothing. *)
Theorem forEachBreakpointLocation_empty_range (S : Sort) (HS : SortContract S)
    (m_positions : list DebuggerPausePosition) (L C : Z) :
  is_sorted positionLess m_positions = true ->
  forEachBreakpointLocation m_positions L C L C = Returned [].
Proof.
  intros Hsorted. unfold forEachBreakpointLocation.
  destruct (firstPositionAfter_split _ Hsorted L C) as (_ & _ & Hit).
  destruct (firstPositionAfter m_positions L C) as [|first it'].
  - simpl. now rewrite (sort_nil _ lineColumnLess_swo).
  - inversion Hit as [|? ? Hfirst _]; subst.
    assert (Hafter : isAfterEnd L C (line (position first)) (column (position first)) = true).
    { apply isAfterEnd_true. unfold lineColumnLe, queryPosition in Hfirst.
      simpl in Hfirst. lia. }
    rewrite collectUniquePositions_cons, Hafter.
    now rewrite (sort_nil _ lineColumnLess_swo).
Qed.

(* ===================================================================== *)
(** ** sort *)
(* ===================================================================== *)

Section SortFacts.
Context {S : Sort} {HS : SortContract S}.
Variable ordinal : DebuggerPausePositionType -> Z.

Lemma sort_Permutation (l : list DebuggerPausePosition) :
  Permutation l (sort ordinal l).
Proof. apply std_sort_permutation, offsetTypeLess_swo. Qed.

Lemma sort_StronglySorted (l : list DebuggerPausePosition) :
  StronglySorted (offsetTypeLe ordinal) (sort ordinal l).
Proof.
  pose proof (std_sort_sorted l (offsetTypeLess_swo ordinal)) as Hs.
  apply (is_sorted_StronglySorted (offsetTypeLess_swo ordinal)) in Hs.
  eapply StronglySorted_impl; [|exact Hs].
  intros a b _ _ Hab. apply offsetTypeLess_false. exact Hab.
Qed.

Lemma is_sorted_offsetTypeLe (l : list DebuggerPausePosition) :
  is_sorted (offsetTypeLess ordinal) l = true ->
  StronglySorted (offsetTypeLe ordinal) l.
Proof.
  intros Hs. apply (is_sorted_StronglySorted (offsetTypeLess_swo ordinal)) in Hs.
  eapply StronglySorted_impl; [|exact Hs].
  intros a b _ _ Hab. apply offsetTypeLess_false. exact Hab.
Qed.

Lemma offsetTypeLe_antisym (a b : DebuggerPausePosition) :
  offsetTypeLe ordinal a b -> offsetTypeLe ordinal b a ->
  sortKey ordinal a = sortKey ordinal b.
Proof. unfold offsetTypeLe, sortKey. intros Hab Hba. f_equal; lia. Qed.

(** Sorting a sorted sequence keeps its sequence of keys ... *)
Lemma sort_sorted_keys (l : list DebuggerPausePosition) :
  is_sorted (offsetTypeLess ordinal) l = true ->
  map (sortKey ordinal) (sort ordinal l) = map (sortKey ordinal) l.
Proof.
  intros Hl. symmetry.
  apply sorted_permutation_unique
    with (R := fun k1 k2 : Z * Z =>
                 (fst k1 < fst k2 \/ (fst k1 = fst k2 /\ snd k1 <= snd k2))%Z).
  - intros [o1 t1] [o2 t2] _ _; simpl. intros H12 H21. f_equal; lia.
  - apply StronglySorted_map. exact (is_sorted_offsetTypeLe _ Hl).
  - apply StronglySorted_map. exact (sort_StronglySorted l).
  - apply Permutation_map, sort_Permutation.
Qed.

(** ... and the sequence itself when its records differ in their keys. *)
Lemma sort_sorted_fixed (l : list DebuggerPausePosition) :
  is_sorted (offsetTypeLess ordinal) l = true ->
  (forall a b, In a l -> In b l -> sortKey ordinal a = sortKey ordinal b -> a = b) ->
  sort ordinal l = l.
Proof.
  intros Hl Hkeys. symmetry.
  apply sorted_permutation_unique with (R := offsetTypeLe ordinal).
  - intros a b Ha Hb Hab Hba. apply Hkeys; try assumption.
    now apply offsetTypeLe_antisym.
  - exact (is_sorted_offsetTypeLe _ Hl).
  - exact (sort_StronglySorted l).
  - apply sort_Permutation.
Qed.

Lemma sort_follows_lineColumn (l : list DebuggerPausePosition) :
  offsetsFollowLineColumn l ->
  StronglySorted (notAfter positionLess) (sort ordinal l).
Proof.
  intros Hagree.
  eapply StronglySorted_impl; [|exact (sort_StronglySorted l)].
  intros a b Ha Hb Hab. unfold notAfter.
  rewrite positionLess_lineColumnLess. apply lineColumnLess_false.
  apply Hagree.
  - eapply Permutation_in; [apply Permutation_sym, sort_Permutation | exact Ha].
  - eapply Permutation_in; [apply Permutation_sym, sort_Permutation | exact Hb].
  - unfold offsetTypeLe in Hab. lia.
Qed.
End SortFacts.

(** C6, as amended. [sort] rearranges the records so that offsets ascend and
    records with one offset ascend by the value of their type.  Applied to a
    sequence that is already sorted, it keeps the sequence of (offset, type
    value) pairs, and it keeps the sequence itself when no two different
    records share both: [std::sort] does not fix the order of records that
    compare equivalent. *)
Theorem sort_ascending_and_idempotent_on_keys (S : Sort) (HS : SortContract S)
    (ordinal : DebuggerPausePositionType -> Z) (l : list DebuggerPausePosition) :
  Permutation l (sort ordinal l)
  /\ StronglySorted (offsetTypeLe ordinal) (sort ordinal l)
  /\ (is_sorted (offsetTypeLess ordinal) l = true ->
      map (sortKey ordinal) (sort ordinal l) = map (sortKey ordinal) l
      /\ ((forall a b, In a l -> In b l ->
                       sortKey ordinal a = sortKey ordinal b -> a = b) ->
          sort ordinal l = l)).
Proof.
  split; [apply sort_Permutation|].
  split; [apply sort_StronglySorted|].
  intros Hl. split.
  - now apply sort_sorted_keys.
  - now apply sort_sorted_fixed.
Qed.

(** C7, as amended. When offset order agrees with line and column order on
    the appended records, the sequence is non-decreasing by line, then
    column, after [sort]. *)
Theorem sort_nonDecreasing_by_position (S : Sort) (HS : SortContract S)
    (ordinal : DebuggerPausePositionType -> Z) (l : list DebuggerPausePosition) :
  offsetsFollowLineColumn l ->
  is_sorted positionLess (sort ordinal l) = true
  /\ StronglySorted lineColumnLe (map position (sort ordinal l)).
Proof.
  intros Hagree.
  pose proof (sort_follows_lineColumn ordinal Hagree) as Hs.
  split.
  - now apply (is_sorted_StronglySorted positionLess_swo).
  - apply StronglySorted_map.
    eapply StronglySorted_impl; [|exact Hs].
    intros a b _ _ Hab. apply lineColumnLess_false. exact Hab.
Qed.

(* ===================================================================== *)
(** ** Further properties of the code *)
(* ===================================================================== *)

(** X1. The two assertions at the head of [breakpointLocationForLineColumn(line,
    column, it)] hold when it is entered from the two-argument overload on a
    sorted index: the record under the iterator is not before the query. *)
Theorem breakpointLocationForLineColumn_assertions
    (m_positions : list DebuggerPausePosition) (L C : Z)
    (first : DebuggerPausePosition) (it' : list DebuggerPausePosition) :
  is_sorted positionLess m_positions = true ->
  firstPositionAfter m_positions L C = first :: it' ->
  (L <= line (position first))%Z
  /\ (L <> line (position first) \/ (C <= column (position first))%Z).
Proof.
  intros Hsorted Hfpa.
  destruct (firstPositionAfter_split _ Hsorted L C) as (_ & _ & Hit).
  rewrite Hfpa in Hit. inversion Hit as [|? ? Hfirst _]; subst.
  unfold lineColumnLe, queryPosition in Hfirst. simpl in Hfirst. lia.
Qed.

(** An [Enter] record that nothing follows is a malformed index: the
    roll-forward loop reads past the end of the vector. *)
Theorem breakpointLocationForLineColumn_unmatched_Enter :
  breakpointLocationForLineColumn
    [mkDebuggerPausePosition Enter (mkJSTextPosition 1 0 0)] 1 0
  = OutOfBounds.
Proof. reflexivity. Qed.

(** X3. On an index in which every [Enter] has a later [Leave], no query reads
    out of bounds. *)
Theorem breakpointLocationForLineColumn_wellFormed
    (m_positions : list DebuggerPausePosition) (L C : Z) :
  everyEnterHasLeave m_positions = true ->
  exists result, breakpointLocationForLineColumn m_positions L C = Returned result.
Proof.
  intros Hwf. unfold breakpointLocationForLineColumn.
  apply breakpointLocationForLineColumnFrom_wellFormed.
  apply everyEnterHasLeave_skipn. exact Hwf.
Qed.

Lemma collectUniquePositions_before_end (endLine endColumn : Z)
    (it : list DebuggerPausePosition) :
  forall uniquePositions collected,
    Forall (fun q => isAfterEnd endLine endColumn (line q) (column q) = false)
      uniquePositions ->
    collectUniquePositions endLine endColumn it uniquePositions = Returned collected ->
    Forall (fun q => isAfterEnd endLine endColumn (line q) (column q) = false) collected.
Proof.
  induction it as [|p it' IH]; intros acc out Hacc.
  - intros [= <-]. exact Hacc.
  - rewrite collectUniquePositions_cons.
    destruct (isAfterEnd _ _ (line (position p)) _); [intros [= <-]; exact Hacc|].
    destruct (breakpointLocationForLineColumnFrom _ _ _) as [[resolved|]|];
      [| now apply IH | discriminate].
    apply IH.
    destruct (isAfterEnd endLine endColumn (line resolved) (column resolved)) eqn:Hres;
      simpl; [exact Hacc|].
    unfold appendIfNotContains. destruct (existsb _ acc); [exact Hacc|].
    apply Forall_app. split; [exact Hacc|]. constructor; [exact Hres | constructor].
Qed.

(** X5. Every position the callback of [forEachBreakpointLocation] is called
    with is the position of a record of the index and stands before the end
    of the range. *)
Theorem forEachBreakpointLocation_before_end (S : Sort) (HS : SortContract S)
    (m_positions : list DebuggerPausePosition)
    (startLine startColumn endLine endColumn : Z) (visited : list JSTextPosition) :
  forEachBreakpointLocation m_positions startLine startColumn endLine endColumn
  = Returned visited ->
  forall q, In q visited ->
    isAfterEnd endLine endColumn (line q) (column q) = false
    /\ exists r, In r m_positions /\ position r = q.
Proof.
  intros Hvisited q Hq.
  split; [|exact (proj2 (proj2 (forEachBreakpointLocation_visited _ _ _ _ _ _ Hvisited)) q Hq)].
  unfold forEachBreakpointLocation in Hvisited.
  destruct (collectUniquePositions _ _ _ _) as [collected|] eqn:Hcollect; [|discriminate].
  injection Hvisited as <-.
  pose proof (std_sort_permutation collected lineColumnLess_swo) as Hperm.
  apply (Permutation_in _ (Permutation_sym Hperm)) in Hq.
  pose proof (collectUniquePositions_before_end _ _ _ (Forall_nil _) Hcollect) as Hall.
  rewrite Forall_forall in Hall. exact (Hall q Hq).
Qed.

(* ===================================================================== *)
(** ** Resolution: where a query lands *)
(* ===================================================================== *)

Lemma lineColumnLe_trans (a b c : JSTextPosition) :
  lineColumnLe a b -> lineColumnLe b c -> lineColumnLe a c.
Proof. unfold lineColumnLe. lia. Qed.

Lemma breakpointLocationForLineColumnFrom_head (line' column' : Z)
    (first : DebuggerPausePosition) (it' : list DebuggerPausePosition) :
  type first <> Enter ->
  breakpointLocationForLineColumnFrom line' column' (first :: it')
  = Returned (Some (position first)).
Proof.
  intros Hne. apply isEnter_false in Hne.
  unfold breakpointLocationForLineColumnFrom.
  destruct (_ && _)%bool; simpl; rewrite Hne; reflexivity.
Qed.

(** On a sorted index every record reached from the iterator is at or after
    the query. *)
Lemma firstPositionAfter_In_lineColumnLe (m_positions : list DebuggerPausePosition)
    (L C : Z) (r : DebuggerPausePosition) :
  is_sorted positionLess m_positions = true ->
  In r (firstPositionAfter m_positions L C) ->
  lineColumnLe (queryPosition L C) (position r).
Proof.
  intros Hsorted Hr.
  destruct (firstPositionAfter_split _ Hsorted L C) as (_ & _ & Hit).
  rewrite Forall_forall in Hit. exact (Hit r Hr).
Qed.

(** On a sorted index a record at or after the query is reached from the
    iterator. *)
Lemma firstPositionAfter_reaches (m_positions : list DebuggerPausePosition)
    (L C : Z) (r : DebuggerPausePosition) :
  is_sorted positionLess m_positions = true ->
  In r m_positions ->
  lineColumnLe (queryPosition L C) (position r) ->
  In r (firstPositionAfter m_positions L C).
Proof.
  intros Hsorted Hr Hle.
  destruct (firstPositionAfter_split _ Hsorted L C) as (Hsplit & Hpre & _).
  rewrite Hsplit in Hr. apply in_app_or in Hr. destruct Hr as [Hr|Hr]; [|exact Hr].
  rewrite Forall_forall in Hpre. apply Hpre in Hr.
  unfold lineColumnLe, lineColumnLt in *. lia.
Qed.

(** X6. On a sorted index, a position returned by
    [breakpointLocationForLineColumn] is never before the query. *)
Theorem breakpointLocationForLineColumn_not_before_query
    (m_positions : list DebuggerPausePosition) (L C : Z) (p : JSTextPosition) :
  is_sorted positionLess m_positions = true ->
  breakpointLocationForLineColumn m_positions L C = Returned (Some p) ->
  lineColumnLe (queryPosition L C) p.
Proof.
  intros Hsorted Hp. unfold breakpointLocationForLineColumn in Hp.
  destruct (breakpointLocationForLineColumnFrom_Some _ _ _ Hp) as (r & Hr & <- & _).
  eapply firstPositionAfter_In_lineColumnLe; eassumption.
Qed.

(** X7. On a sorted index, when the first record that is not before the
    query is not an [Enter], its position is the result, exact match or not;
    it is not before the query, and it is the least position of the index
    that is not before the query. *)
Theorem breakpointLocationForLineColumn_nearest
    (m_positions : list DebuggerPausePosition) (L C : Z)
    (first : DebuggerPausePosition) (it' : list DebuggerPausePosition) :
  is_sorted positionLess m_positions = true ->
  firstPositionAfter m_positions L C = first :: it' ->
  type first <> Enter ->
  breakpointLocationForLineColumn m_positions L C = Returned (Some (position first))
  /\ In first m_positions
  /\ lineColumnLe (queryPosition L C) (position first)
  /\ forall r, In r m_positions ->
       lineColumnLe (queryPosition L C) (position r) ->
       lineColumnLe (position first) (position r).
Proof.
  intros Hsorted Hfpa Hne.
  assert (Hin : In first (firstPositionAfter m_positions L C))
    by (rewrite Hfpa; now left).
  split; [|split; [|split]].
  - unfold breakpointLocationForLineColumn. rewrite Hfpa.
    now apply breakpointLocationForLineColumnFrom_head.
  - eapply firstPositionAfter_incl; exact Hin.
  - exact (@firstPositionAfter_In_lineColumnLe m_positions L C first Hsorted Hin).
  - intros r Hr Hle.
    pose proof (@firstPositionAfter_reaches m_positions L C r Hsorted Hr Hle) as Hinr.
    pose proof (firstPositionAfter_sorted _ Hsorted L C) as Hits.
    rewrite Hfpa in Hinr, Hits.
    exact (sorted_head_lineColumnLe Hits Hinr).
Qed.

(** X8. On a sorted index, a query after every record has no result. *)
Theorem breakpointLocationForLineColumn_past_last_record
    (m_positions : list DebuggerPausePosition) (L C : Z) :
  is_sorted positionLess m_positions = true ->
  (forall r, In r m_positions -> lineColumnLt (position r) (queryPosition L C)) ->
  breakpointLocationForLineColumn m_positions L C = Returned None.
Proof.
  intros Hsorted Hless. unfold breakpointLocationForLineColumn.
  destruct (firstPositionAfter m_positions L C) as [|first it'] eqn:Hfpa; [reflexivity|].
  exfalso.
  assert (Hin : In first (firstPositionAfter m_positions L C))
    by (rewrite Hfpa; now left).
  pose proof (@firstPositionAfter_In_lineColumnLe m_positions L C first Hsorted Hin) as Hle.
  pose proof (Hless first (firstPositionAfter_incl _ _ _ _ Hin)) as Hlt.
  unfold lineColumnLe, lineColumnLt in *. lia.
Qed.

(** X9. On a sorted index the iterators of [firstPositionAfter] are ordered
    like the queries: a later query never stands on an earlier record. *)
Theorem firstPositionAfterIndex_monotone
    (m_positions : list DebuggerPausePosition) (L1 C1 L2 C2 : Z) :
  is_sorted positionLess m_positions = true ->
  lineColumnLe (queryPosition L1 C1) (queryPosition L2 C2) ->
  firstPositionAfterIndex m_positions L1 C1 <= firstPositionAfterIndex m_positions L2 C2.
Proof.
  intros Hsorted Hle.
  destruct (firstPositionAfterIndex_partition_point _ Hsorted L1 C1) as (Hlen1 & Hlo1 & _).
  destruct (firstPositionAfterIndex_partition_point _ Hsorted L2 C2) as (_ & _ & Hhi2).
  destruct (Nat.le_gt_cases (firstPositionAfterIndex m_positions L1 C1)
              (firstPositionAfterIndex m_positions L2 C2)) as [Hok|Hgt]; [exact Hok|].
  exfalso.
  destruct (nth_error m_positions (firstPositionAfterIndex m_positions L2 C2))
    as [r|] eqn:Hr.
  - pose proof (Hlo1 _ r Hgt Hr) as Hlt.
    pose proof (Hhi2 _ r (Nat.le_refl _) Hr) as Hge.
    unfold lineColumnLe, lineColumnLt, queryPosition in *. simpl in *. lia.
  - apply nth_error_None in Hr. lia.
Qed.

(** A query that stands exactly on a record that is not an [Enter] is
    resolved on its own line and column. *)
Lemma breakpointLocationForLineColumn_exact_record
    (m_positions : list DebuggerPausePosition) (r : DebuggerPausePosition) :
  is_sorted positionLess m_positions = true ->
  In r m_positions -> type r <> Enter ->
  exists p,
    breakpointLocationForLineColumn m_positions
      (line (position r)) (column (position r)) = Returned (Some p)
    /\ line p = line (position r) /\ column p = column (position r).
Proof.
  intros Hsorted Hr Hne.
  destruct (@firstPositionAfter_exact m_positions _ _ r Hsorted Hr eq_refl eq_refl)
    as (first & it' & Hfpa & HfL & HfC & Hrit).
  pose proof (firstPositionAfter_sorted _ Hsorted
                (line (position r)) (column (position r))) as Hits.
  rewrite Hfpa in Hits.
  destruct (rollForward_reaches _ _ Hrit Hne)
    as (passed & landed & rest & Hroll & Heq & Hrest).
  exists (position landed).
  unfold breakpointLocationForLineColumn. rewrite Hfpa.
  unfold breakpointLocationForLineColumnFrom.
  rewrite HfL, HfC, !Z.eqb_refl. simpl andb. cbv iota. rewrite Hroll.
  split; [reflexivity|].
  assert (Hlo : lineColumnLe (position first) (position landed)).
  { apply (sorted_head_lineColumnLe Hits). rewrite Heq.
    apply in_or_app. right. now left. }
  assert (Hhi : lineColumnLe (position landed) (position r)).
  { apply (is_sorted_StronglySorted positionLess_swo) in Hits.
    rewrite Heq in Hits. apply StronglySorted_app_r in Hits.
    apply (is_sorted_StronglySorted positionLess_swo) in Hits.
    eapply sorted_head_lineColumnLe; eassumption. }
  unfold lineColumnLe in *. lia.
Qed.

(** X10. On a sorted index resolution is idempotent: the position a query is
    resolved to is resolved to its own line and column. *)
Theorem breakpointLocationForLineColumn_idempotent
    (m_positions : list DebuggerPausePosition) (L C : Z) (p : JSTextPosition) :
  is_sorted positionLess m_positions = true ->
  breakpointLocationForLineColumn m_positions L C = Returned (Some p) ->
  exists p',
    breakpointLocationForLineColumn m_positions (line p) (column p)
    = Returned (Some p')
    /\ line p' = line p /\ column p' = column p.
Proof.
  intros Hsorted Hp. unfold breakpointLocationForLineColumn in Hp.
  destruct (breakpointLocationForLineColumnFrom_Some _ _ _ Hp) as (r & Hr & <- & Hne).
  apply breakpointLocationForLineColumn_exact_record; try assumption.
  eapply firstPositionAfter_incl; eassumption.
Qed.

(** X11. [append], [sort], query: once the appended records are sorted, and
    their offsets follow their lines and columns, a query on the line and
    column of an appended record that is not an [Enter] is resolved on that
    line and column. *)
Theorem sort_then_breakpointLocationForLineColumn (S : Sort) (HS : SortContract S)
    (ordinal : DebuggerPausePositionType -> Z)
    (appended : list DebuggerPausePosition) (r : DebuggerPausePosition) :
  offsetsFollowLineColumn appended ->
  In r appended -> type r <> Enter ->
  exists p,
    breakpointLocationForLineColumn (sort ordinal appended)
      (line (position r)) (column (position r)) = Returned (Some p)
    /\ line p = line (position r) /\ column p = column (position r).
Proof.
  intros Hagree Hr Hne.
  apply breakpointLocationForLineColumn_exact_record; [| |exact Hne].
  - apply (is_sorted_StronglySorted positionLess_swo).
    now apply sort_follows_lineColumn.
  - eapply Permutation_in; [apply sort_Permutation | exact Hr].
Qed.

(* ===================================================================== *)
(** ** Resolution: functions that are entered or skipped *)
(* ===================================================================== *)

(** While it skips, the slide loop passes complete scopes with its counter
    unchanged. *)
Lemma slide_scopeBody (body : list DebuggerPausePosition) :
  scopeBody body ->
  forall (entryStackSize : Z) (rest : list DebuggerPausePosition),
    (0 < entryStackSize)%Z ->
    slide entryStackSize (body ++ rest) = slide entryStackSize rest.
Proof.
  induction 1 as [|p l Hne Hnl Hl IHl|enter leave inner l Henter Hleave Hinner IHinner Hl IHl];
    intros n rest Hn.
  - reflexivity.
  - apply isEnter_false in Hne.
    assert (Hnl' : isLeave (type p) = false) by (destruct (type p); simpl; congruence).
    simpl. destruct (Z.eqb_spec n 0) as [->|_]; [lia|]. simpl.
    rewrite Hne, Hnl'. now apply IHl.
  - simpl. rewrite <- app_assoc. simpl.
    destruct (Z.eqb_spec n 0) as [->|_]; [lia|]. simpl.
    rewrite Henter. simpl. rewrite IHinner by lia. simpl.
    destruct (Z.eqb_spec (n + 1) 0) as [Hz|_]; [lia|]. simpl.
    rewrite Hleave. simpl.
    replace (n + 1 - 1)%Z with n by lia. now apply IHl.
Qed.

(** X12. A query on another line than the [Enter] record it runs into skips
    the function, the functions nested in it included: the result is that
    of the slide loop started behind the matching [Leave], that is the
    record after the [Leave] unless another function starts there, and no
    result when the index ends with the [Leave]. *)
Theorem breakpointLocationForLineColumn_skips_function
    (m_positions : list DebuggerPausePosition) (L C : Z)
    (enter leave : DebuggerPausePosition) (body rest : list DebuggerPausePosition) :
  firstPositionAfter m_positions L C = enter :: body ++ leave :: rest ->
  type enter = Enter -> type leave = Leave -> scopeBody body ->
  line (position enter) <> L ->
  breakpointLocationForLineColumn m_positions L C
  = Returned match rest with
             | [] => None
             | next :: rest' =>
                 if isEnter (type next) then slide 1 rest' else Some (position next)
             end.
Proof.
  intros Hfpa Henter Hleave Hbody Hline.
  unfold breakpointLocationForLineColumn. rewrite Hfpa.
  unfold breakpointLocationForLineColumnFrom.
  destruct (Z.eqb_spec L (line (position enter))) as [Heq|_]; [congruence|].
  simpl andb. cbv iota. rewrite Henter. simpl negb. cbv iota.
  destruct (Z.eqb_spec (line (position enter)) L) as [Heq|_]; [congruence|].
  cbv zeta. rewrite slide_scopeBody by (assumption || lia).
  simpl. rewrite Hleave. simpl.
  destruct rest as [|next rest']; reflexivity.
Qed.

(** X13. A query on the line of the [Enter] record it runs into, at its
    column or before it, goes into the function: when the record after the
    [Enter] is not an [Enter] itself, its position is the result. *)
Theorem breakpointLocationForLineColumn_enters_function
    (m_positions : list DebuggerPausePosition) (L C : Z)
    (enter next : DebuggerPausePosition) (rest : list DebuggerPausePosition) :
  firstPositionAfter m_positions L C = enter :: next :: rest ->
  type enter = Enter -> type next <> Enter ->
  line (position enter) = L ->
  breakpointLocationForLineColumn m_positions L C = Returned (Some (position next)).
Proof.
  intros Hfpa Henter Hnext Hline. apply isEnter_false in Hnext.
  unfold breakpointLocationForLineColumn. rewrite Hfpa.
  unfold breakpointLocationForLineColumnFrom.
  rewrite Hline, !Z.eqb_refl. simpl. rewrite Henter, Hnext. simpl.
  destruct (C =? column (position enter))%Z; reflexivity.
Qed.

Lemma slideAssertions_nonnegative (it : list DebuggerPausePosition) :
  forall entryStackSize : Z,
    (0 <= entryStackSize)%Z -> slideAssertions entryStackSize it = true.
Proof.
  induction it as [|p it IH]; intros n Hn; [reflexivity|].
  simpl. rewrite Z.geb_leb. destruct (Z.leb_spec 0 n) as [_|Hlt]; [|lia]. simpl.
  destruct (Z.eqb_spec n 0) as [->|Hne]; simpl.
  - destruct (isEnter (type p)); [apply IH; lia | reflexivity].
  - destruct (isEnter (type p)); [apply IH; lia|].
    destruct (isLeave (type p)); apply IH; lia.
Qed.

(** X14. [ASSERT(entryStackSize >= 0)] holds each time the slide loop is
    entered, for every index and every query: the counter is decremented
    only while it is not zero. *)
Theorem breakpointLocationForLineColumn_entryStackSize_nonnegative
    (m_positions : list DebuggerPausePosition) (L C : Z) :
  breakpointLocationAssertionsFrom L C (firstPositionAfter m_positions L C) = true.
Proof.
  unfold breakpointLocationAssertionsFrom.
  destruct (firstPositionAfter m_positions L C) as [|first it']; [reflexivity|].
  destruct (_ && _)%bool; [reflexivity|].
  destruct (negb _); [reflexivity|].
  cbv zeta. apply slideAssertions_nonnegative.
  destruct (_ =? _)%Z; lia.
Qed.

(* ===================================================================== *)
(** ** forEachBreakpointLocation: what a range holds *)
(* ===================================================================== *)




Section CollectRange.
Variables endLine endColumn : Z.

Lemma collectUniquePositions_from_records (it : list DebuggerPausePosition) :
  forall uniquePositions collected,
    collectUniquePositions endLine endColumn it uniquePositions = Returned collected ->
    forall q, In q collected ->
      In q uniquePositions
      \/ exists r, In r it /\ position r = q /\ type r <> Enter.
Proof.
  induction it as [|p it' IH]; intros acc out.
  - intros [= <-]. auto.
  - rewrite collectUniquePositions_cons.
    destruct (isAfterEnd _ _ _ _); [intros [= <-]; auto|].
    destruct (breakpointLocationForLineColumnFrom _ _ _) as [[resolved|]|] eqn:Hres;
      [| | discriminate].
    + intros Hout q Hq.
      destruct (IH _ _ Hout q Hq) as [Hacc|(r & Hr & Hpos & Hty)].
      * assert (Hq' : In q acc \/ q = resolved).
        { destruct (negb _); [now apply appendIfNotContains_In | now left]. }
        destruct Hq' as [Hq'| ->]; [now left|]. right.
        exact (breakpointLocationForLineColumnFrom_Some _ _ _ Hres).
      * right. exists r. split; [now right | auto].
    + intros Hout q Hq.
      destruct (IH _ _ Hout q Hq) as [Hacc|(r & Hr & Hpos & Hty)]; [now left|].
      right. exists r. split; [now right | auto].
Qed.

End CollectRange.

(** X15. On a sorted index, every position [forEachBreakpointLocation]
    visits is at or after the start of the range, and is the position of a
    record of the index that is not an [Enter]. *)
Theorem forEachBreakpointLocation_not_before_start (S : Sort) (HS : SortContract S)
    (m_positions : list DebuggerPausePosition)
    (startLine startColumn endLine endColumn : Z) (visited : list JSTextPosition) :
  is_sorted positionLess m_positions = true ->
  forEachBreakpointLocation m_positions startLine startColumn endLine endColumn
  = Returned visited ->
  forall q, In q visited ->
    lineColumnLe (queryPosition startLine startColumn) q
    /\ exists r, In r m_positions /\ position r = q /\ type r <> Enter.
Proof.
  intros Hsorted Hvisited q Hq.
  unfold forEachBreakpointLocation in Hvisited.
  destruct (collectUniquePositions _ _ _ _) as [collected|] eqn:Hcollect; [|discriminate].
  injection Hvisited as <-.
  pose proof (std_sort_permutation collected lineColumnLess_swo) as Hperm.
  apply (Permutation_in _ (Permutation_sym Hperm)) in Hq.
  destruct (collectUniquePositions_from_records _ _ _ _ Hcollect q Hq)
    as [[]|(r & Hr & <- & Hty)].
  split.
  - eapply firstPositionAfter_In_lineColumnLe; eassumption.
  - exists r. repeat split; try assumption.
    eapply firstPositionAfter_incl; eassumption.
Qed.


(** X17. On a sorted index, a range whose end is at or before its start
    visits nothing. *)
Theorem forEachBreakpointLocation_inverted_range (S : Sort) (HS : SortContract S)
    (m_positions : list DebuggerPausePosition)
    (startLine startColumn endLine endColumn : Z) :
  is_sorted positionLess m_positions = true ->
  lineColumnLe (queryPosition endLine endColumn) (queryPosition startLine startColumn) ->
  forEachBreakpointLocation m_positions startLine startColumn endLine endColumn
  = Returned [].
Proof.
  intros Hsorted Hrange. unfold forEachBreakpointLocation.
  destruct (firstPositionAfter_split _ Hsorted startLine startColumn) as (_ & _ & Hit).
  destruct (firstPositionAfter m_positions startLine startColumn) as [|first it'].
  - simpl. now rewrite (sort_nil _ lineColumnLess_swo).
  - inversion Hit as [|? ? Hfirst _]; subst.
    assert (Hafter : isAfterEnd endLine endColumn
                       (line (position first)) (column (position first)) = true).
    { apply isAfterEnd_true.
      unfold lineColumnLe, queryPosition in Hfirst, Hrange. simpl in Hfirst, Hrange. lia. }
    rewrite collectUniquePositions_cons, Hafter.
    now rewrite (sort_nil _ lineColumnLess_swo).
Qed.

(* ===================================================================== *)
(** ** Reads past the end of the index *)
(* ===================================================================== *)

Lemma rollForward_OutOfBounds (it : list DebuggerPausePosition) :
  rollForward it = OutOfBounds -> Forall (fun r => type r = Enter) it.
Proof.
  induction it as [|p it IH]; simpl; [constructor|].
  destruct (isEnter (type p)) eqn:Hp; [|discriminate].
  intros Hroll. constructor; [now apply isEnter_true | now apply IH].
Qed.

Lemma breakpointLocationForLineColumnFrom_OutOfBounds (line' column' : Z)
    (it : list DebuggerPausePosition) :
  breakpointLocationForLineColumnFrom line' column' it = OutOfBounds ->
  exists first it',
    it = first :: it'
    /\ line (position first) = line' /\ column (position first) = column'
    /\ Forall (fun r => type r = Enter) it.
Proof.
  unfold breakpointLocationForLineColumnFrom.
  destruct it as [|first it']; [discriminate|].
  destruct (Z.eqb_spec line' (line (position first))) as [HL|_];
    destruct (Z.eqb_spec column' (column (position first))) as [HC|_];
    simpl andb; cbv iota;
    try (destruct (negb _); discriminate).
  destruct (rollForward (first :: it')) eqn:Hroll; [discriminate|].
  intros _. exists first, it'. repeat split; try congruence.
  now apply rollForward_OutOfBounds.
Qed.



(** X18. The only read past the end that [breakpointLocationForLineColumn]
    makes is that of the roll-forward loop: the query stands exactly on a
    record, and from that record to the end of the index every record is an
    [Enter]. *)
Theorem breakpointLocationForLineColumn_OutOfBounds
    (m_positions : list DebuggerPausePosition) (L C : Z) :
  breakpointLocationForLineColumn m_positions L C = OutOfBounds ->
  exists before first it',
    m_positions = before ++ first :: it'
    /\ line (position first) = L /\ column (position first) = C
    /\ Forall (fun r => type r = Enter) (first :: it').
Proof.
  unfold breakpointLocationForLineColumn. intros Hout.
  destruct (breakpointLocationForLineColumnFrom_OutOfBounds _ _ _ Hout)
    as (first & it' & Hit & HL & HC & Hall).
  exists (firstn (firstPositionAfterIndex m_positions L C) m_positions), first, it'.
  rewrite <- Hit at 1. unfold firstPositionAfter. rewrite firstn_skipn.
  rewrite Hit in Hall. auto.
Qed.

Lemma collectUniquePositions_OutOfBounds (endLine endColumn : Z)
    (it : list DebuggerPausePosition) :
  forall uniquePositions,
    collectUniquePositions endLine endColumn it uniquePositions = OutOfBounds ->
    exists passed trailing,
      it = passed ++ trailing /\ trailing <> []
      /\ Forall (fun r => type r = Enter) trailing.
Proof.
  induction it as [|p it' IH]; intros acc; [discriminate|].
  rewrite collectUniquePositions_cons.
  destruct (isAfterEnd _ _ _ _); [discriminate|].
  destruct (breakpointLocationForLineColumnFrom _ _ (p :: it')) as [[resolved|]|] eqn:Hres.
  - intros Hout. destruct (IH _ Hout) as (passed & trailing & -> & Hne & Hall).
    exists (p :: passed), trailing. auto.
  - intros Hout. destruct (IH _ Hout) as (passed & trailing & -> & Hne & Hall).
    exists (p :: passed), trailing. auto.
  - intros _.
    destruct (breakpointLocationForLineColumnFrom_OutOfBounds _ _ _ Hres)
      as (_ & _ & _ & _ & _ & Hall).
    exists [], (p :: it'). repeat split; [discriminate | exact Hall].
Qed.

(** X19. [forEachBreakpointLocation] reads past the end only on an index
    that ends with [Enter] records: some [Enter] record has nothing but
    [Enter] records between it and the end of the index. *)
Theorem forEachBreakpointLocation_OutOfBounds (S : Sort)
    (m_positions : list DebuggerPausePosition)
    (startLine startColumn endLine endColumn : Z) :
  forEachBreakpointLocation m_positions startLine startColumn endLine endColumn
  = OutOfBounds ->
  exists before trailing,
    m_positions = before ++ trailing /\ trailing <> []
    /\ Forall (fun r => type r = Enter) trailing.
Proof.
  unfold forEachBreakpointLocation.
  destruct (collectUniquePositions _ _ _ _) as [collected|] eqn:Hcollect; [discriminate|].
  intros _.
  destruct (collectUniquePositions_OutOfBounds _ _ _ _ Hcollect)
    as (passed & trailing & Hit & Hne & Hall).
  exists (firstn (firstPositionAfterIndex m_positions startLine startColumn) m_positions
          ++ passed), trailing.
  rewrite <- app_assoc, <- Hit. unfold firstPositionAfter. rewrite firstn_skipn. auto.
Qed.

(* ===================================================================== *)
(** ** What does not depend on the implementation of std::sort *)
(* ===================================================================== *)

(** X20. When the line and the column of a record fix its position, the
    sequence of positions [forEachBreakpointLocation] visits is the same for
    every implementation of [std::sort] that meets the contract. *)
Theorem forEachBreakpointLocation_any_sort
    (S1 : Sort) (HS1 : SortContract S1) (S2 : Sort) (HS2 : SortContract S2)
    (m_positions : list DebuggerPausePosition)
    (startLine startColumn endLine endColumn : Z) :
  lineColumnFixesPosition m_positions ->
  @forEachBreakpointLocation S1 m_positions startLine startColumn endLine endColumn
  = @forEachBreakpointLocation S2 m_positions startLine startColumn endLine endColumn.
Proof.
  intros Hfixes.
  destruct (@forEachBreakpointLocation S1 m_positions startLine startColumn
              endLine endColumn) as [visited1|] eqn:H1;
    destruct (@forEachBreakpointLocation S2 m_positions startLine startColumn
                endLine endColumn) as [visited2|] eqn:H2;
    try (unfold forEachBreakpointLocation in H1, H2;
         destruct (collectUniquePositions _ _ _ _); discriminate);
    [|reflexivity].
  f_equal.
  destruct (forEachBreakpointLocation_visited HS1 _ _ _ _ _ H1) as (_ & Hs1 & Hfrom1).
  destruct (forEachBreakpointLocation_visited HS2 _ _ _ _ _ H2) as (_ & Hs2 & _).
  apply sorted_permutation_unique with (R := lineColumnLe); try assumption.
  - intros a b Ha Hb Hab Hba.
    destruct (Hfrom1 a Ha) as (ra & Hra & <-).
    destruct (Hfrom1 b Hb) as (rb & Hrb & <-).
    destruct (lineColumnLe_antisym Hab Hba) as [Hline Hcol].
    now apply Hfixes.
  - unfold forEachBreakpointLocation in H1, H2.
    destruct (collectUniquePositions _ _ _ _) as [collected|]; [|discriminate].
    injection H1 as <-. injection H2 as <-.
    rewrite <- (std_sort_permutation (S := S1) collected lineColumnLess_swo).
    apply (std_sort_permutation (S := S2)). exact lineColumnLess_swo.
Qed.

(** X21. When no two different records share both their offset and the
    value of their type, the sequence [sort] leaves is the same for every
    implementation of [std::sort] that meets the contract. *)
Theorem sort_any_sort
    (S1 : Sort) (HS1 : SortContract S1) (S2 : Sort) (HS2 : SortContract S2)
    (ordinal : DebuggerPausePositionType -> Z) (l : list DebuggerPausePosition) :
  (forall a b, In a l -> In b l -> sortKey ordinal a = sortKey ordinal b -> a = b) ->
  @sort S1 ordinal l = @sort S2 ordinal l.
Proof.
  intros Hkeys.
  apply sorted_permutation_unique with (R := offsetTypeLe ordinal).
  - intros a b Ha Hb Hab Hba.
    apply Hkeys.
    + eapply Permutation_in; [apply Permutation_sym, (sort_Permutation (S := S1)) | exact Ha].
    + eapply Permutation_in; [apply Permutation_sym, (sort_Permutation (S := S1)) | exact Hb].
    + now apply offsetTypeLe_antisym.
  - apply sort_StronglySorted.
  - apply sort_StronglySorted.
  - rewrite <- (sort_Permutation (S := S1) ordinal l).
    apply (sort_Permutation (S := S2)).
Qed.

(* ===================================================================== *)
(** ** The statements at concrete indexes *)
(* ===================================================================== *)

(** The query (2,0) on a scope followed by a pause position on line 7. *)
Lemma breakpointLocationForLineColumn_skips_scope_witness :
  is_sorted positionLess
    (scopeRecords 30 45 61 ++ [mkDebuggerPausePosition Normal (mkJSTextPosition 7 0 80)])
  = true
  /\ type (mkDebuggerPausePosition Normal (mkJSTextPosition 7 0 80)) <> Enter
  /\ breakpointLocationForLineColumn
       (scopeRecords 30 45 61 ++ [mkDebuggerPausePosition Normal (mkJSTextPosition 7 0 80)])
       2 0
     = Returned (Some (mkJSTextPosition 7 0 80)).
Proof.
  split; [reflexivity|]. split; [discriminate|].
  apply (proj2 (breakpointLocationForLineColumn_skips_scope 30 45 61));
    [reflexivity | discriminate].
Defined.

(** The query (4,5) stands on the [Normal] record of the scope. *)
Lemma breakpointLocationForLineColumn_exact_Normal_witness :
  is_sorted positionLess (scopeRecords 30 45 61) = true
  /\ exists p,
       breakpointLocationForLineColumn (scopeRecords 30 45 61) 4 5 = Returned (Some p)
       /\ line p = 4%Z /\ column p = 5%Z.
Proof.
  split; [reflexivity|].
  apply (@breakpointLocationForLineColumn_exact_Normal (scopeRecords 30 45 61) 4 5
           (mkDebuggerPausePosition Normal (mkJSTextPosition 4 5 45)));
    [reflexivity | simpl; tauto | reflexivity | reflexivity | reflexivity].
Defined.

(** The query (4,0) on the scope: the iterator stands on its second record. *)
Lemma firstPositionAfter_first_not_less_witness :
  is_sorted positionLess (scopeRecords 30 45 61) = true
  /\ firstPositionAfterIndex (scopeRecords 30 45 61) 4 0 = 1
  /\ forall j r, j < firstPositionAfterIndex (scopeRecords 30 45 61) 4 0 ->
                 nth_error (scopeRecords 30 45 61) j = Some r ->
                 lineColumnLt (position r) (queryPosition 4 0).
Proof.
  split; [reflexivity|]. split; [reflexivity|].
  exact (proj1 (proj2 (proj2
           (@firstPositionAfter_first_not_less (scopeRecords 30 45 61) 4 0 eq_refl)))).
Defined.

(** The query (3,10) stands on the [Enter] record of the scope. *)
Lemma rollForward_in_bounds_witness :
  is_sorted positionLess (scopeRecords 30 45 61) = true
  /\ everyEnterHasLeave (scopeRecords 30 45 61) = true
  /\ exists first it' landed,
       firstPositionAfter (scopeRecords 30 45 61) 3 10 = first :: it'
       /\ line (position first) = 3%Z /\ column (position first) = 10%Z
       /\ rollForward (first :: it') = Returned landed
       /\ In landed (scopeRecords 30 45 61) /\ type landed <> Enter
       /\ breakpointLocationForLineColumn (scopeRecords 30 45 61) 3 10
          = Returned (Some (position landed)).
Proof.
  split; [reflexivity|]. split; [reflexivity|].
  apply (@rollForward_in_bounds (scopeRecords 30 45 61) 3 10
           (mkDebuggerPausePosition Enter (mkJSTextPosition 3 10 30)));
    [reflexivity | reflexivity | simpl; tauto | reflexivity | reflexivity | reflexivity].
Defined.

(** The position (4,5) returned for the query (3,10) is that of the
    [Normal] record. *)
Lemma breakpointLocationForLineColumn_never_Enter_witness :
  breakpointLocationForLineColumn (scopeRecords 30 45 61) 3 10
  = Returned (Some (mkJSTextPosition 4 5 45))
  /\ exists r, In r (scopeRecords 30 45 61)
               /\ position r = mkJSTextPosition 4 5 45 /\ type r <> Enter.
Proof.
  split; [reflexivity|].
  apply (@breakpointLocationForLineColumn_never_Enter (scopeRecords 30 45 61) 3 10).
  reflexivity.
Defined.

(** The range from (0,0) to (9,0) over the scope visits (4,5), then (5,1). *)
Lemma forEachBreakpointLocation_increasing_witness :
  @forEachBreakpointLocation stableSort (scopeRecords 30 45 61) 0 0 9 0
  = Returned [mkJSTextPosition 4 5 45; mkJSTextPosition 5 1 61]
  /\ NoDup [mkJSTextPosition 4 5 45; mkJSTextPosition 5 1 61]
  /\ StronglySorted lineColumnLe [mkJSTextPosition 4 5 45; mkJSTextPosition 5 1 61]
  /\ (lineColumnFixesPosition (scopeRecords 30 45 61) ->
      StronglySorted lineColumnLt [mkJSTextPosition 4 5 45; mkJSTextPosition 5 1 61]).
Proof.
  split; [reflexivity|].
  apply (@forEachBreakpointLocation_increasing stableSort stableSort_contract
           (scopeRecords 30 45 61) 0 0 9 0).
  reflexivity.
Defined.

(** The range from (4,5) to (4,5) over the scope. *)
Lemma forEachBreakpointLocation_empty_range_witness :
  is_sorted positionLess (scopeRecords 30 45 61) = true
  /\ @forEachBreakpointLocation stableSort (scopeRecords 30 45 61) 4 5 4 5 = Returned [].
Proof.
  split; [reflexivity|].
  apply (@forEachBreakpointLocation_empty_range stableSort stableSort_contract).
  reflexivity.
Defined.

(** The records of the scope, appended in another order and sorted. *)
Lemma sort_ascending_and_idempotent_on_keys_witness :
  is_sorted (offsetTypeLess declaredOrdinal) (scopeRecords 30 45 61) = true
  /\ @sort stableSort declaredOrdinal (scopeRecords 30 45 61) = scopeRecords 30 45 61.
Proof.
  split; [reflexivity|].
  apply (proj2 (proj2 (@sort_ascending_and_idempotent_on_keys stableSort
                         stableSort_contract declaredOrdinal (scopeRecords 30 45 61))));
    [reflexivity|].
  intros a b Ha Hb Hkey. simpl in Ha, Hb.
  destruct Ha as [<-|[<-|[<-|[]]]]; destruct Hb as [<-|[<-|[<-|[]]]];
    try reflexivity; discriminate Hkey.
Defined.

Lemma sort_nonDecreasing_by_position_witness :
  offsetsFollowLineColumn (rev (scopeRecords 30 45 61))
  /\ is_sorted positionLess
       (@sort stableSort declaredOrdinal (rev (scopeRecords 30 45 61))) = true.
Proof.
  assert (Hagree : offsetsFollowLineColumn (rev (scopeRecords 30 45 61))).
  { intros a b Ha Hb. simpl in Ha, Hb.
    destruct Ha as [<-|[<-|[<-|[]]]]; destruct Hb as [<-|[<-|[<-|[]]]];
      unfold lineColumnLe; simpl; lia. }
  split; [exact Hagree|].
  exact (proj1 (@sort_nonDecreasing_by_position stableSort stableSort_contract
                  declaredOrdinal (rev (scopeRecords 30 45 61)) Hagree)).
Defined.

(* ===================================================================== *)
(** ** Where the statements of the spec stop holding *)
(* ===================================================================== *)

(** C4, the claim as written fails: two records on line 1, column 5 with
    different offsets are both valid for the index, sorted either way, and
    the callback is called for each of them, twice with (1,5). *)
Lemma forEachBreakpointLocation_visits_line_column_twice :
  is_sorted positionLess twinRecords = true
  /\ is_sorted (offsetTypeLess declaredOrdinal) twinRecords = true
  /\ @forEachBreakpointLocation stableSort twinRecords 0 0 2 0
     = Returned [mkJSTextPosition 1 5 5; mkJSTextPosition 1 5 6]
  /\ ~ StronglySorted lineColumnLt [mkJSTextPosition 1 5 5; mkJSTextPosition 1 5 6].
Proof.
  repeat split; try reflexivity.
  intros Hs. inversion Hs as [|? ? _ Hall]; subst.
  inversion Hall as [|? ? Hlt _]; subst.
  unfold lineColumnLt in Hlt. simpl in Hlt. lia.
Qed.

(** The same holds whichever implementation of [std::sort] is in use. *)
Lemma forEachBreakpointLocation_visits_twice_any_sort (S : Sort) (HS : SortContract S) :
  exists a b,
    forEachBreakpointLocation twinRecords 0 0 2 0 = Returned [a; b]
    /\ line a = line b /\ column a = column b.
Proof.
  assert (Hrun : forEachBreakpointLocation twinRecords 0 0 2 0
                 = Returned (std_sort lineColumnLess
                               [mkJSTextPosition 1 5 5; mkJSTextPosition 1 5 6]))
    by reflexivity.
  pose proof (std_sort_permutation [mkJSTextPosition 1 5 5; mkJSTextPosition 1 5 6]
                lineColumnLess_swo) as Hperm.
  destruct (std_sort lineColumnLess [mkJSTextPosition 1 5 5; mkJSTextPosition 1 5 6])
    as [|a [|b [|c visited]]] eqn:Hsorted;
    try (apply Permutation_length in Hperm; discriminate Hperm).
  exists a, b. split; [exact Hrun|].
  assert (Ha : In a [mkJSTextPosition 1 5 5; mkJSTextPosition 1 5 6])
    by (eapply Permutation_in; [apply Permutation_sym; exact Hperm | now left]).
  assert (Hb : In b [mkJSTextPosition 1 5 5; mkJSTextPosition 1 5 6])
    by (eapply Permutation_in; [apply Permutation_sym; exact Hperm | right; now left]).
  destruct Ha as [<-|[<-|[]]]; destruct Hb as [<-|[<-|[]]]; split; reflexivity.
Qed.

(** C6, the claim as written fails: seventeen records of one type at one
    offset are sorted in the order they stand in, and [std::sort] as
    libstdc++ implements it takes the range for a quicksort partition and
    leaves them in another order; sorting once more changes the order
    again.  The offsets and types are in place, as the amended statement
    says. *)
Lemma sort_reorders_seventeen_equivalent_records :
  is_sorted (offsetTypeLess declaredOrdinal) seventeenTiedRecords = true
  /\ map (fun r => line (position r))
       (@sort libstdcxxSort declaredOrdinal seventeenTiedRecords)
     = [9; 17; 16; 15; 14; 13; 12; 11; 10; 1; 8; 7; 6; 5; 4; 3; 2]%Z
  /\ @sort libstdcxxSort declaredOrdinal seventeenTiedRecords <> seventeenTiedRecords
  /\ @sort libstdcxxSort declaredOrdinal
       (@sort libstdcxxSort declaredOrdinal seventeenTiedRecords)
     <> @sort libstdcxxSort declaredOrdinal seventeenTiedRecords
  /\ map (sortKey declaredOrdinal)
       (@sort libstdcxxSort declaredOrdinal seventeenTiedRecords)
     = map (sortKey declaredOrdinal) seventeenTiedRecords.
Proof.
  split; [reflexivity|]. split; [vm_compute; reflexivity|].
  split; [vm_compute; discriminate|]. split; [vm_compute; discriminate|].
  vm_compute. reflexivity.
Qed.

(** C7, the claim as written fails: sorted by offset, the record on line 2
    stays in front of the record on line 1. *)
Lemma sort_leaves_lines_decreasing :
  @sort stableSort declaredOrdinal backwardRecords = backwardRecords
  /\ is_sorted positionLess (@sort stableSort declaredOrdinal backwardRecords) = false.
Proof. split; reflexivity. Qed.

(** The same holds whichever implementation of [std::sort] is in use. *)
Lemma sort_leaves_lines_decreasing_any_sort (S : Sort) (HS : SortContract S) :
  is_sorted positionLess (sort declaredOrdinal backwardRecords) = false.
Proof.
  rewrite sort_sorted_fixed; [reflexivity | reflexivity |].
  intros a b Ha Hb Hkey. simpl in Ha, Hb.
  destruct Ha as [<-|[<-|[]]]; destruct Hb as [<-|[<-|[]]];
    try reflexivity; discriminate Hkey.
Qed.

Lemma breakpointLocationForLineColumn_assertions_witness :
  is_sorted positionLess (scopeRecords 30 45 61) = true
  /\ firstPositionAfter (scopeRecords 30 45 61) 4 0
     = [ mkDebuggerPausePosition Normal (mkJSTextPosition 4 5 45);
         mkDebuggerPausePosition Leave (mkJSTextPosition 5 1 61) ]
  /\ (4 <= 4)%Z /\ (4%Z <> 4%Z \/ (0 <= 5)%Z).
Proof.
  split; [reflexivity|]. split; [reflexivity|].
  exact (@breakpointLocationForLineColumn_assertions (scopeRecords 30 45 61) 4 0
           _ _ eq_refl eq_refl).
Defined.

Lemma breakpointLocationForLineColumn_wellFormed_witness :
  everyEnterHasLeave (scopeRecords 30 45 61) = true
  /\ exists result,
       breakpointLocationForLineColumn (scopeRecords 30 45 61) 2 0 = Returned result.
Proof.
  split; [reflexivity|].
  exact (@breakpointLocationForLineColumn_wellFormed (scopeRecords 30 45 61) 2 0 eq_refl).
Defined.

Lemma forEachBreakpointLocation_wellFormed_witness :
  everyEnterHasLeave (scopeRecords 30 45 61) = true
  /\ exists visited,
       @forEachBreakpointLocation stableSort (scopeRecords 30 45 61) 0 0 9 0
       = Returned visited.
Proof.
  split; [reflexivity|].
  exact (@forEachBreakpointLocation_wellFormed stableSort (scopeRecords 30 45 61)
           0 0 9 0 eq_refl).
Defined.

Lemma forEachBreakpointLocation_before_end_witness :
  @forEachBreakpointLocation stableSort (scopeRecords 30 45 61) 0 0 5 0
  = Returned [mkJSTextPosition 4 5 45]
  /\ isAfterEnd 5 0 4 5 = false
  /\ exists r, In r (scopeRecords 30 45 61) /\ position r = mkJSTextPosition 4 5 45.
Proof.
  split; [reflexivity|].
  exact (@forEachBreakpointLocation_before_end stableSort stableSort_contract
           (scopeRecords 30 45 61) 0 0 5 0 [mkJSTextPosition 4 5 45] eq_refl
           (mkJSTextPosition 4 5 45) (or_introl eq_refl)).
Defined.

(* ===================================================================== *)
(** ** The further properties at concrete indexes *)
(* ===================================================================== *)

(** The query (3,0), on the line of the [Enter] record, lands on (4,5). *)
Lemma breakpointLocationForLineColumn_not_before_query_witness :
  is_sorted positionLess (scopeRecords 30 45 61) = true
  /\ breakpointLocationForLineColumn (scopeRecords 30 45 61) 3 0
     = Returned (Some (mkJSTextPosition 4 5 45))
  /\ lineColumnLe (queryPosition 3 0) (mkJSTextPosition 4 5 45).
Proof.
  split; [reflexivity|]. split; [reflexivity|].
  exact (@breakpointLocationForLineColumn_not_before_query (scopeRecords 30 45 61) 3 0
           (mkJSTextPosition 4 5 45) eq_refl eq_refl).
Defined.

(** The query (4,0) runs into the [Normal] record at (4,5), the second
    record of the scope. *)
Lemma breakpointLocationForLineColumn_nearest_witness :
  is_sorted positionLess (scopeRecords 30 45 61) = true
  /\ firstPositionAfter (scopeRecords 30 45 61) 4 0
     = [ mkDebuggerPausePosition Normal (mkJSTextPosition 4 5 45);
         mkDebuggerPausePosition Leave (mkJSTextPosition 5 1 61) ]
  /\ breakpointLocationForLineColumn (scopeRecords 30 45 61) 4 0
     = Returned (Some (mkJSTextPosition 4 5 45))
  /\ In (mkDebuggerPausePosition Normal (mkJSTextPosition 4 5 45)) (scopeRecords 30 45 61)
  /\ lineColumnLe (queryPosition 4 0) (mkJSTextPosition 4 5 45)
  /\ forall r, In r (scopeRecords 30 45 61) ->
       lineColumnLe (queryPosition 4 0) (position r) ->
       lineColumnLe (mkJSTextPosition 4 5 45) (position r).
Proof.
  split; [reflexivity|]. split; [reflexivity|].
  exact (@breakpointLocationForLineColumn_nearest (scopeRecords 30 45 61) 4 0
           (mkDebuggerPausePosition Normal (mkJSTextPosition 4 5 45))
           [mkDebuggerPausePosition Leave (mkJSTextPosition 5 1 61)]
           eq_refl eq_refl ltac:(discriminate)).
Defined.

(** The query (9,0) is after the three records of the scope. *)
Lemma breakpointLocationForLineColumn_past_last_record_witness :
  is_sorted positionLess (scopeRecords 30 45 61) = true
  /\ breakpointLocationForLineColumn (scopeRecords 30 45 61) 9 0 = Returned None.
Proof.
  split; [reflexivity|].
  apply (@breakpointLocationForLineColumn_past_last_record (scopeRecords 30 45 61) 9 0);
    [reflexivity|].
  intros r Hr. simpl in Hr.
  destruct Hr as [<-|[<-|[<-|[]]]]; unfold lineColumnLt; simpl; lia.
Defined.

Lemma firstPositionAfterIndex_monotone_witness :
  is_sorted positionLess (scopeRecords 30 45 61) = true
  /\ lineColumnLe (queryPosition 2 0) (queryPosition 4 0)
  /\ firstPositionAfterIndex (scopeRecords 30 45 61) 2 0
     <= firstPositionAfterIndex (scopeRecords 30 45 61) 4 0.
Proof.
  assert (Hle : lineColumnLe (queryPosition 2 0) (queryPosition 4 0))
    by (unfold lineColumnLe; simpl; lia).
  split; [reflexivity|]. split; [exact Hle|].
  exact (@firstPositionAfterIndex_monotone (scopeRecords 30 45 61) 2 0 4 0 eq_refl Hle).
Defined.

(** The query (3,10) is resolved to (4,5), and (4,5) to itself. *)
Lemma breakpointLocationForLineColumn_idempotent_witness :
  is_sorted positionLess (scopeRecords 30 45 61) = true
  /\ breakpointLocationForLineColumn (scopeRecords 30 45 61) 3 10
     = Returned (Some (mkJSTextPosition 4 5 45))
  /\ exists p',
       breakpointLocationForLineColumn (scopeRecords 30 45 61) 4 5 = Returned (Some p')
       /\ line p' = 4%Z /\ column p' = 5%Z.
Proof.
  split; [reflexivity|]. split; [reflexivity|].
  exact (@breakpointLocationForLineColumn_idempotent (scopeRecords 30 45 61) 3 10
           (mkJSTextPosition 4 5 45) eq_refl eq_refl).
Defined.

(** The records of the scope, appended from the last to the first, sorted,
    and queried at (5,1), where the [Leave] record stands. *)
Lemma sort_then_breakpointLocationForLineColumn_witness :
  offsetsFollowLineColumn (rev (scopeRecords 30 45 61))
  /\ exists p,
       breakpointLocationForLineColumn
         (@sort stableSort declaredOrdinal (rev (scopeRecords 30 45 61))) 5 1
       = Returned (Some p)
       /\ line p = 5%Z /\ column p = 1%Z.
Proof.
  assert (Hagree : offsetsFollowLineColumn (rev (scopeRecords 30 45 61))).
  { intros a b Ha Hb. simpl in Ha, Hb.
    destruct Ha as [<-|[<-|[<-|[]]]]; destruct Hb as [<-|[<-|[<-|[]]]];
      unfold lineColumnLe; simpl; lia. }
  split; [exact Hagree|].
  exact (@sort_then_breakpointLocationForLineColumn stableSort stableSort_contract
           declaredOrdinal (rev (scopeRecords 30 45 61))
           (mkDebuggerPausePosition Leave (mkJSTextPosition 5 1 61))
           Hagree (or_introl eq_refl) ltac:(discriminate)).
Defined.

(** The query (2,0) skips the scope and lands on the record behind it. *)
Lemma breakpointLocationForLineColumn_skips_function_witness :
  scopeBody [mkDebuggerPausePosition Normal (mkJSTextPosition 4 5 45)]
  /\ breakpointLocationForLineColumn
       (scopeRecords 30 45 61 ++ [mkDebuggerPausePosition Normal (mkJSTextPosition 7 0 80)])
       2 0
     = Returned (Some (mkJSTextPosition 7 0 80)).
Proof.
  assert (Hbody : scopeBody [mkDebuggerPausePosition Normal (mkJSTextPosition 4 5 45)])
    by (constructor; [discriminate | discriminate | constructor]).
  split; [exact Hbody|].
  exact (@breakpointLocationForLineColumn_skips_function
           (scopeRecords 30 45 61 ++ [mkDebuggerPausePosition Normal (mkJSTextPosition 7 0 80)])
           2 0
           (mkDebuggerPausePosition Enter (mkJSTextPosition 3 10 30))
           (mkDebuggerPausePosition Leave (mkJSTextPosition 5 1 61))
           [mkDebuggerPausePosition Normal (mkJSTextPosition 4 5 45)]
           [mkDebuggerPausePosition Normal (mkJSTextPosition 7 0 80)]
           eq_refl eq_refl eq_refl Hbody ltac:(discriminate)).
Defined.

(** The query (3,0), on the line of the [Enter] record and before it. *)
Lemma breakpointLocationForLineColumn_enters_function_witness :
  firstPositionAfter (scopeRecords 30 45 61) 3 0 = scopeRecords 30 45 61
  /\ breakpointLocationForLineColumn (scopeRecords 30 45 61) 3 0
     = Returned (Some (mkJSTextPosition 4 5 45)).
Proof.
  split; [reflexivity|].
  exact (@breakpointLocationForLineColumn_enters_function (scopeRecords 30 45 61) 3 0
           (mkDebuggerPausePosition Enter (mkJSTextPosition 3 10 30))
           (mkDebuggerPausePosition Normal (mkJSTextPosition 4 5 45))
           [mkDebuggerPausePosition Leave (mkJSTextPosition 5 1 61)]
           eq_refl eq_refl ltac:(discriminate) eq_refl).
Defined.

(** The range from (0,0) to (9,0) over the scope. *)
Lemma forEachBreakpointLocation_not_before_start_witness :
  is_sorted positionLess (scopeRecords 30 45 61) = true
  /\ @forEachBreakpointLocation stableSort (scopeRecords 30 45 61) 0 0 9 0
     = Returned [mkJSTextPosition 4 5 45; mkJSTextPosition 5 1 61]
  /\ lineColumnLe (queryPosition 0 0) (mkJSTextPosition 4 5 45)
  /\ exists r, In r (scopeRecords 30 45 61)
               /\ position r = mkJSTextPosition 4 5 45 /\ type r <> Enter.
Proof.
  split; [reflexivity|]. split; [reflexivity|].
  exact (@forEachBreakpointLocation_not_before_start stableSort stableSort_contract
           (scopeRecords 30 45 61) 0 0 9 0
           [mkJSTextPosition 4 5 45; mkJSTextPosition 5 1 61] eq_refl eq_refl
           (mkJSTextPosition 4 5 45) (or_introl eq_refl)).
Defined.


(** The range from (5,0) back to (4,0). *)
Lemma forEachBreakpointLocation_inverted_range_witness :
  is_sorted positionLess (scopeRecords 30 45 61) = true
  /\ lineColumnLe (queryPosition 4 0) (queryPosition 5 0)
  /\ @forEachBreakpointLocation stableSort (scopeRecords 30 45 61) 5 0 4 0 = Returned [].
Proof.
  assert (Hle : lineColumnLe (queryPosition 4 0) (queryPosition 5 0))
    by (unfold lineColumnLe; simpl; lia).
  split; [reflexivity|]. split; [exact Hle|].
  exact (@forEachBreakpointLocation_inverted_range stableSort stableSort_contract
           (scopeRecords 30 45 61) 5 0 4 0 eq_refl Hle).
Defined.

(** An index that holds one [Enter] record, queried where it stands. *)
Lemma breakpointLocationForLineColumn_OutOfBounds_witness :
  breakpointLocationForLineColumn
    [mkDebuggerPausePosition Enter (mkJSTextPosition 1 0 0)] 1 0 = OutOfBounds
  /\ exists before first it',
       [mkDebuggerPausePosition Enter (mkJSTextPosition 1 0 0)] = before ++ first :: it'
       /\ line (position first) = 1%Z /\ column (position first) = 0%Z
       /\ Forall (fun r => type r = Enter) (first :: it').
Proof.
  split; [reflexivity|].
  exact (@breakpointLocationForLineColumn_OutOfBounds
           [mkDebuggerPausePosition Enter (mkJSTextPosition 1 0 0)] 1 0 eq_refl).
Defined.

Lemma forEachBreakpointLocation_OutOfBounds_witness :
  @forEachBreakpointLocation stableSort
    [mkDebuggerPausePosition Enter (mkJSTextPosition 1 0 0)] 0 0 2 0 = OutOfBounds
  /\ exists before trailing,
       [mkDebuggerPausePosition Enter (mkJSTextPosition 1 0 0)] = before ++ trailing
       /\ trailing <> []
       /\ Forall (fun r => type r = Enter) trailing.
Proof.
  split; [reflexivity|].
  exact (@forEachBreakpointLocation_OutOfBounds stableSort
           [mkDebuggerPausePosition Enter (mkJSTextPosition 1 0 0)] 0 0 2 0 eq_refl).
Defined.

(** Two implementations of [std::sort], one range over the scope. *)
Lemma forEachBreakpointLocation_any_sort_witness :
  lineColumnFixesPosition (scopeRecords 30 45 61)
  /\ @forEachBreakpointLocation stableSort (scopeRecords 30 45 61) 0 0 9 0
     = @forEachBreakpointLocation reversingSort (scopeRecords 30 45 61) 0 0 9 0.
Proof.
  assert (Hfixes : lineColumnFixesPosition (scopeRecords 30 45 61)).
  { intros a b Ha Hb. simpl in Ha, Hb.
    destruct Ha as [<-|[<-|[<-|[]]]]; destruct Hb as [<-|[<-|[<-|[]]]];
      simpl; intros Hline Hcol; try reflexivity; discriminate. }
  split; [exact Hfixes|].
  exact (@forEachBreakpointLocation_any_sort stableSort stableSort_contract
           reversingSort reversingSort_contract (scopeRecords 30 45 61) 0 0 9 0 Hfixes).
Defined.

Lemma sort_any_sort_witness :
  @sort stableSort declaredOrdinal (rev (scopeRecords 30 45 61))
  = @sort reversingSort declaredOrdinal (rev (scopeRecords 30 45 61)).
Proof.
  apply (@sort_any_sort stableSort stableSort_contract reversingSort reversingSort_contract).
  intros a b Ha Hb Hkey. simpl in Ha, Hb.
  destruct Ha as [<-|[<-|[<-|[]]]]; destruct Hb as [<-|[<-|[<-|[]]]];
    try reflexivity; discriminate Hkey.
Defined.

